(** * pb-toolkit, package [rpc]: registration and dispatch of services

    A shallow embedding of [pkg/rpc/server.go] together with the parts of the
    Go standard library it calls ([strings], [unicode/utf8], [reflect],
    [net/http], [fmt]), followed by the properties of the package.

    Go strings are byte sequences; they are modelled by [string], whose
    characters are the 256 values of [ascii].  Runes are integers. *)

From Stdlib Require Import ZArith Ascii String List Lia Bool.
From stdpp Require Import base option list strings gmap fin_maps.

Local Open Scope Z_scope.

(* ===================================================================== *)
(** ** Bytes *)
(* ===================================================================== *)

Definition byte_val (c : ascii) : Z := Z.of_N (N_of_ascii c).
Definition byte_of (z : Z) : ascii := ascii_of_N (Z.to_N z).

Fixpoint bytes_of (s : string) : list Z :=
  match s with
  | EmptyString => []
  | String c t => byte_val c :: bytes_of t
  end.

Fixpoint string_of_bytes (l : list Z) : string :=
  match l with
  | [] => EmptyString
  | b :: t => String (byte_of b) (string_of_bytes t)
  end.

(** [s[n:]] for [n <= len(s)]. *)
Fixpoint drop_bytes (n : nat) (s : string) : string :=
  match n, s with
  | O, _ => s
  | S n', String _ t => drop_bytes n' t
  | S _, EmptyString => EmptyString
  end.

(** [s[:n]] for [n <= len(s)]. *)
Fixpoint take_bytes (n : nat) (s : string) : string :=
  match n, s with
  | O, _ => EmptyString
  | S n', String c t => String c (take_bytes n' t)
  | S _, EmptyString => EmptyString
  end.

(* ===================================================================== *)
(** ** Package [unicode/utf8] *)
(* ===================================================================== *)

Module utf8.

Definition RuneError : Z := 65533.      (* U+FFFD *)
Definition RuneSelf : Z := 128.
Definition MaxRune : Z := 1114111.      (* U+10FFFF *)

(** The entries of the table [first]: the class of a leading byte, as the
    size of the sequence it starts and the range accepted for the second
    byte.  [None] is the entry [xx] of an invalid leading byte. *)
Definition first (b : Z) : option (nat * (Z * Z)) :=
  if b <? 128 then Some (1%nat, (0, 0))                  (* as *)
  else if b <? 194 then None                             (* xx: 0x80-0xC1 *)
  else if b <? 224 then Some (2%nat, (128, 191))         (* s1: 0xC2-0xDF *)
  else if b =? 224 then Some (3%nat, (160, 191))         (* s2: 0xE0 *)
  else if b <? 237 then Some (3%nat, (128, 191))         (* s3: 0xE1-0xEC *)
  else if b =? 237 then Some (3%nat, (128, 159))         (* s4: 0xED *)
  else if b <? 240 then Some (3%nat, (128, 191))         (* s3: 0xEE-0xEF *)
  else if b =? 240 then Some (4%nat, (144, 191))         (* s5: 0xF0 *)
  else if b <? 244 then Some (4%nat, (128, 191))         (* s6: 0xF1-0xF3 *)
  else if b =? 244 then Some (4%nat, (128, 143))         (* s7: 0xF4 *)
  else None.                                             (* xx: 0xF5-0xFF *)

Definition continuation (b : Z) : bool := (128 <=? b) && (b <=? 191).

(** [DecodeRuneInString]: the rune at the front of [s] and its width in
    bytes; an invalid or short encoding gives [(RuneError, 1)]. *)
Definition DecodeRuneInString (s : string) : Z * nat :=
  match bytes_of (take_bytes 4 s) with
  | [] => (RuneError, 0%nat)
  | s0 :: rest =>
    match first s0 with
    | None => (RuneError, 1%nat)
    | Some (1%nat, _) => (s0, 1%nat)
    | Some (sz, (lo, hi)) =>
      if (length rest <? Nat.pred sz)%nat then (RuneError, 1%nat) else
      match rest with
      | [] => (RuneError, 1%nat)
      | s1 :: rest1 =>
        if (s1 <? lo) || (hi <? s1) then (RuneError, 1%nat)
        else if (sz <=? 2)%nat then
          (Z.lor (Z.shiftl (Z.land s0 31) 6) (Z.land s1 63), 2%nat)
        else
          match rest1 with
          | [] => (RuneError, 1%nat)
          | s2 :: rest2 =>
            if negb (continuation s2) then (RuneError, 1%nat)
            else if (sz <=? 3)%nat then
              (Z.lor (Z.lor (Z.shiftl (Z.land s0 15) 12)
                            (Z.shiftl (Z.land s1 63) 6))
                     (Z.land s2 63), 3%nat)
            else
              match rest2 with
              | [] => (RuneError, 1%nat)
              | s3 :: _ =>
                if negb (continuation s3) then (RuneError, 1%nat)
                else
                  (Z.lor (Z.lor (Z.lor (Z.shiftl (Z.land s0 7) 18)
                                       (Z.shiftl (Z.land s1 63) 12))
                                (Z.shiftl (Z.land s2 63) 6))
                         (Z.land s3 63), 4%nat)
              end
          end
      end
    end
  end.

(** The bytes [AppendRune] writes for [r]: runes out of range and
    surrogates are written as [RuneError]. *)
Definition EncodeRune (r : Z) : list Z :=
  if (0 <=? r) && (r <? 128) then [r]
  else if (0 <=? r) && (r <? 2048) then
    [Z.lor 192 (Z.shiftr r 6); Z.lor 128 (Z.land r 63)]
  else if (r <? 0) || (MaxRune <? r) || ((55296 <=? r) && (r <=? 57343)) then
    [239; 191; 189]
  else if r <? 65536 then
    [Z.lor 224 (Z.shiftr r 12); Z.lor 128 (Z.land (Z.shiftr r 6) 63);
     Z.lor 128 (Z.land r 63)]
  else
    [Z.lor 240 (Z.shiftr r 18); Z.lor 128 (Z.land (Z.shiftr r 12) 63);
     Z.lor 128 (Z.land (Z.shiftr r 6) 63); Z.lor 128 (Z.land r 63)].

(** The runes a [for _, c := range s] loop visits.  Every step consumes at
    least one byte, so [length s] steps are enough. *)
Fixpoint range_fuel (fuel : nat) (s : string) : list Z :=
  match fuel with
  | O => []
  | S fuel' =>
    match s with
    | EmptyString => []
    | _ => let '(r, size) := DecodeRuneInString s in
           r :: range_fuel fuel' (drop_bytes size s)
    end
  end.

Definition range (s : string) : list Z := range_fuel (String.length s) s.

End utf8.

(* ===================================================================== *)
(** ** Package [unicode]: the simple case mappings *)
(* ===================================================================== *)

(** The case tables of package [unicode] are data of the Go distribution.
    The development is parametric in them: it uses that they act on ASCII
    as the letters require and that the replacement character has no case. *)
Class CaseTables := {
  unicode_ToUpper : Z -> Z;
  unicode_ToLower : Z -> Z;
  unicode_ToUpper_ascii r :
    0 <= r < 128 ->
    unicode_ToUpper r = if (97 <=? r) && (r <=? 122) then r - 32 else r;
  unicode_ToLower_ascii r :
    0 <= r < 128 ->
    unicode_ToLower r = if (65 <=? r) && (r <=? 90) then r + 32 else r;
  unicode_ToUpper_RuneError : unicode_ToUpper utf8.RuneError = utf8.RuneError;
  unicode_ToLower_RuneError : unicode_ToLower utf8.RuneError = utf8.RuneError
}.

(* ===================================================================== *)
(** ** Package [strings] *)
(* ===================================================================== *)

Module Strings.

(** [HasPrefix(s, prefix)]. *)
Fixpoint HasPrefix (s prefix : string) : bool :=
  match prefix, s with
  | EmptyString, _ => true
  | String p prefix', String c s' =>
    if Ascii.eqb p c then HasPrefix s' prefix' else false
  | String _ _, EmptyString => false
  end.

(** [Index(s, substr)]: the index of the first instance of [substr] in
    [s]; [None] stands for [-1]. *)
Fixpoint Index (s substr : string) : option nat :=
  if HasPrefix s substr then Some O else
  match s with
  | EmptyString => None
  | String _ s' => S <$> Index s' substr
  end.

(** The loop of [genSplit] for a separator that is not empty and no limit
    on the number of pieces.  Each piece found consumes at least one byte
    of [s]. *)
Fixpoint genSplit (fuel : nat) (s sep : string) : list string :=
  match fuel with
  | O => [s]
  | S fuel' =>
    match Index s sep with
    | None => [s]
    | Some m =>
      take_bytes m s :: genSplit fuel' (drop_bytes (m + String.length sep) s) sep
    end
  end.

(** [explode]: the pieces of [Split(s, "")], one per UTF-8 sequence. *)
Fixpoint explode (fuel : nat) (s : string) : list string :=
  match fuel with
  | O => []
  | S fuel' =>
    match s with
    | EmptyString => []
    | _ => let '(_, size) := utf8.DecodeRuneInString s in
           take_bytes size s :: explode fuel' (drop_bytes size s)
    end
  end.

Definition Split (s sep : string) : list string :=
  match sep with
  | EmptyString => explode (String.length s) s
  | _ => genSplit (String.length s) s sep
  end.

(** [Join(elems, sep)]. *)
Fixpoint Join (elems : list string) (sep : string) : string :=
  match elems with
  | [] => EmptyString
  | [e] => e
  | e :: rest => e +:+ sep +:+ Join rest sep
  end.

(** [Map(mapping, s)]: every rune of [s] is mapped, a negative result is
    dropped, the rest is encoded again.  A byte that is not part of a
    valid encoding is visited as [RuneError] and so written back as the
    three bytes of U+FFFD. *)
Definition Map (mapping : Z -> Z) (s : string) : string :=
  string_of_bytes
    (concat (List.map (fun c => let r := mapping c in
                                if r <? 0 then [] else utf8.EncodeRune r)
                      (utf8.range s))).

Definition isASCII (s : string) : bool :=
  forallb (fun c => c <? utf8.RuneSelf) (bytes_of s).

Definition upperByte (c : Z) : Z :=
  if (97 <=? c) && (c <=? 122) then c - 32 else c.
Definition lowerByte (c : Z) : Z :=
  if (65 <=? c) && (c <=? 90) then c + 32 else c.

Section Case.
Context `{CaseTables}.

(** [ToUpper] and [ToLower]: a loop over the bytes when [s] is ASCII,
    [Map] over the runes otherwise. *)
Definition ToUpper (s : string) : string :=
  if isASCII s then string_of_bytes (List.map upperByte (bytes_of s))
  else Map unicode_ToUpper s.

Definition ToLower (s : string) : string :=
  if isASCII s then string_of_bytes (List.map lowerByte (bytes_of s))
  else Map unicode_ToLower s.
End Case.

End Strings.

(* ===================================================================== *)
(** ** Package [rpc]: [kebabToPascal] *)
(* ===================================================================== *)

Section KebabToPascal.
Context `{CaseTables}.

(** The body of the loop over [parts]: the new value of [parts[i]]. *)
Definition pascalPart (part : string) : string :=
  if (0 <? String.length part)%nat
  then Strings.ToUpper (take_bytes 1 part) +:+ Strings.ToLower (drop_bytes 1 part)
  else part.

Definition kebabToPascal (kebab : string) : string :=
  let parts := Strings.Split kebab "-" in
  Strings.Join (List.map pascalPart parts) "".
End KebabToPascal.

(** Case tables that know the ASCII letters only.  They stand in for the
    tables of the Go distribution where a property is evaluated on an input
    whose result does not depend on the rest of the tables. *)
#[global, refine] Instance asciiTables : CaseTables := {
  unicode_ToUpper r := Strings.upperByte r;
  unicode_ToLower r := Strings.lowerByte r
}.
Proof. all: intros; reflexivity. Defined.

(* ===================================================================== *)
(** ** Panics *)
(* ===================================================================== *)

(** The result of an operation of the runtime or of a library that either
    returns or panics. *)
Inductive Result (A : Type) : Type :=
| Ok (a : A)
| Panic (msg : string).
Arguments Ok {A} a.
Arguments Panic {A} msg.

Definition result_bind {A B} (r : Result A) (f : A -> Result B) : Result B :=
  match r with
  | Ok a => f a
  | Panic msg => Panic msg
  end.

(** [s[i]] on a slice: an index out of range panics. *)
Definition index {A} (l : list A) (i : nat) : Result A :=
  match l !! i with
  | Some a => Ok a
  | None => Panic "runtime error: index out of range"
  end.

(* ===================================================================== *)
(** ** Package [reflect] *)
(* ===================================================================== *)

Module Reflect.

Inductive Kind :=
| Invalid | Bool | Int | Int8 | Int16 | Int32 | Int64
| Uint | Uint8 | Uint16 | Uint32 | Uint64 | Uintptr
| Float32 | Float64 | Complex64 | Complex128
| Array | Chan | Func | Interface | Map | Pointer | Slice
| String | Struct | UnsafePointer.

(** A [reflect.Type], by what the package asks of it: its printed form
    ([t.String()], which tells types apart), its kind, and the answer of
    [t.Implements(reflect.TypeOf(( *error)(nil)).Elem())]. *)
Record Type_ := {
  TypeString : string;
  TypeKind : Kind;
  ImplementsError : bool
}.

(** A [reflect.Value]: its type and its content.  [None] is the nil value of
    a type that has one; [Some d] is a value with payload [d]. *)
Record Value := {
  typ : Type_;
  content : option string
}.

(** A [reflect.Method] of a concrete type: [In] and [Out] are the parameter
    and result types of [method.Type], so that [In m !! 0] is the receiver,
    [NumIn] is [length (In m)] and [NumOut] is [length (Out m)].  [Func_] is
    what calling the method on the instance gives for a list of arguments:
    the values returned, or a panic (of [Value.Call] on arguments the
    method does not accept, or of the method itself). *)
Record Method := {
  Name : string;
  PkgPath : string;
  In : list Type_;
  Out : list Type_;
  Func_ : list Value -> Result (list Value)
}.

Definition NumIn (m : Method) : nat := length (In m).
Definition NumOut (m : Method) : nat := length (Out m).

(** [t.In(i)] and [t.Out(i)] panic when [i] is out of range. *)
Definition InAt (m : Method) (i : nat) : Result Type_ :=
  match In m !! i with
  | Some t => Ok t
  | None => Panic "reflect: Func index out of bounds"
  end.

Definition OutAt (m : Method) (i : nat) : Result Type_ :=
  match Out m !! i with
  | Some t => Ok t
  | None => Panic "reflect: Func index out of bounds"
  end.

(** What is stored in an [interface{}] that is not nil: a value of a
    concrete type with its method set, in the order of [Type.Method(i)]
    (sorted by name; names are distinct). *)
Record Instance := {
  InstanceType : Type_;
  Methods : list Method
}.

(** [Type.Kind()] through a [reflect.Type] interface value: calling it on
    the nil interface dereferences a nil pointer. *)
Definition KindOf (t : option Type_) : Result Kind :=
  match t with
  | Some t => Ok (TypeKind t)
  | None => Panic "runtime error: invalid memory address or nil pointer dereference"
  end.

(** [reflect.New(t)] panics on a nil type; otherwise it makes a pointer to a
    zero value of type [t], and [t] is all that is kept of it here. *)
Definition New (t : option Type_) : Result Type_ :=
  match t with
  | Some t => Ok t
  | None => Panic "reflect: New(nil)"
  end.

(** [reflect.ValueOf(id)] for a string. *)
Definition stringType : Type_ :=
  {| TypeString := "string"; TypeKind := String; ImplementsError := false |}.

Definition ValueOfString (id : string) : Value :=
  {| typ := stringType; content := Some id |}.

(** [reflect.ValueOf(service).MethodByName(name)]: a panic on the zero
    Value (a nil service), the zero Value ([None]) when there is no such
    method. *)
Fixpoint lookupMethod (ms : list Method) (name : string) : option Method :=
  match ms with
  | [] => None
  | m :: ms' => if String.eqb (Name m) name then Some m else lookupMethod ms' name
  end.

Definition MethodByName (service : option Instance) (name : string)
  : Result (option Method) :=
  match service with
  | None => Panic "reflect: call of reflect.Value.MethodByName on zero Value"
  | Some inst => Ok (lookupMethod (Methods inst) name)
  end.

(** [methodValue.Call(args)]. *)
Definition Call (methodValue : option Method) (args : list Value)
  : Result (list Value) :=
  match methodValue with
  | None => Panic "reflect: call of reflect.Value.Call on zero Value"
  | Some m => Func_ m args
  end.

(** [k.String()]. *)
Definition KindString (k : Kind) : string :=
  match k with
  | Invalid => "invalid" | Bool => "bool"
  | Int => "int" | Int8 => "int8" | Int16 => "int16" | Int32 => "int32" | Int64 => "int64"
  | Uint => "uint" | Uint8 => "uint8" | Uint16 => "uint16" | Uint32 => "uint32"
  | Uint64 => "uint64" | Uintptr => "uintptr"
  | Float32 => "float32" | Float64 => "float64"
  | Complex64 => "complex64" | Complex128 => "complex128"
  | Array => "array" | Chan => "chan" | Func => "func" | Interface => "interface"
  | Map => "map" | Pointer => "ptr" | Slice => "slice" | String => "string"
  | Struct => "struct" | UnsafePointer => "unsafe.Pointer"
  end.

(** The text of a [*reflect.ValueError]: a method of [Value] called on a
    value of a kind it does not take. *)
Definition ValueError (method : string) (k : Kind) : string :=
  match k with
  | Invalid => "reflect: call of " +:+ method +:+ " on zero Value"
  | _ => "reflect: call of " +:+ method +:+ " on " +:+ KindString k +:+ " Value"
  end.

(** [v.IsNil()] panics unless the kind of [v] has a nil value. *)
Definition IsNil (v : Value) : Result bool :=
  match TypeKind (typ v) with
  | Chan | Func | Interface | Map | Pointer | Slice | UnsafePointer =>
    Ok (match content v with None => true | Some _ => false end)
  | k => Panic (ValueError "reflect.Value.IsNil" k)
  end.

End Reflect.

(** The type assertion [v.Interface().(error)]. *)
Definition assertError (v : Reflect.Value) : Result Reflect.Value :=
  if Reflect.ImplementsError (Reflect.typ v) then
    match Reflect.IsNil v with
    | Ok true => Panic "interface conversion: interface is nil, not error"
    | _ => Ok v
    end
  else Panic "interface conversion: missing method Error".

(* ===================================================================== *)
(** ** Package [net/http] and the request event *)
(* ===================================================================== *)

Module http.
Definition StatusOK : Z := 200.
Definition StatusBadRequest : Z := 400.
Definition StatusNotFound : Z := 404.
Definition StatusInternalServerError : Z := 500.
End http.

(** The values handed to [e.JSON] as the body of a response. *)
Inductive Body :=
| BodyErrorf (msg : string)                 (* the error made by [fmt.Errorf] *)
| BodyValue (v : Reflect.Value)             (* [v.Interface()] *)
| BodyMap (m : list (string * string)).     (* a [map[string]string] literal *)

(** A [*core.RequestEvent], by what the handlers ask of it: the path
    values of the request, and what [e.BindBody] does with a pointer to a
    zero value of a type: a failure with its message, or the content
    decoded from the body of the request. *)
Record RequestEvent := {
  PathValue : string -> string;
  BindBody : Reflect.Type_ -> string + option string
}.

(* ===================================================================== *)
(** ** Package [rpc]: the data model *)
(* ===================================================================== *)

#[global] Instance result_ret : MRet Result := fun A a => Ok a.
#[global] Instance result_mbind : MBind Result := fun A B f r => result_bind r f.

(** [RPCMethod]: a registered method with its reflection information.
    A nil [reflect.Type] is [None]. *)
Record RPCMethod := {
  Method : Reflect.Method;
  Type_ : option Reflect.Type_;
  HasParams : bool;
  HasResult : bool;
  ResultType : option Reflect.Type_
}.

(** [RPCService]: a service instance (nil is [None]) and its methods. *)
Record RPCService := {
  service : option Reflect.Instance;
  methods : gmap string RPCMethod;
  serviceName : string
}.

(** [Server].  The map holds pointers to descriptors that are filled
    before they are stored and never written afterwards, so the
    descriptors themselves are the values of the map. *)
Record Server := {
  services : gmap string RPCService
}.

Definition NewServer : Server := {| services := ∅ |}.

(* ===================================================================== *)
(** ** [RegisterService] *)
(* ===================================================================== *)

(** One round of the loop over [serviceType.Method(i)]: every [continue]
    leaves the table as it is. *)
Definition registerMethod (table : gmap string RPCMethod) (method : Reflect.Method)
  : Result (gmap string RPCMethod) :=
  if negb (String.eqb (Reflect.PkgPath method) "") then Ok table else
  let numIn := Reflect.NumIn method in
  if negb (numIn =? 1)%nat && negb (numIn =? 2)%nat then Ok table else
  let numOut := Reflect.NumOut method in
  if negb (numOut =? 1)%nat && negb (numOut =? 2)%nat then Ok table else
  lastOut ← Reflect.OutAt method (numOut - 1);
  if negb (Reflect.ImplementsError lastOut) then Ok table else
  params ← (if (numIn =? 2)%nat
            then t ← Reflect.InAt method 1; Ok (true, Some t)
            else Ok (false, None));
  res ← (if (numOut =? 2)%nat
         then t ← Reflect.OutAt method 0; Ok (true, Some t)
         else Ok (false, None));
  let methodInfo := {| Method := method;
                       Type_ := params.2;
                       HasParams := params.1;
                       HasResult := res.1;
                       ResultType := res.2 |} in
  Ok (<[Reflect.Name method := methodInfo]> table).

(** The loop [for i := 0; i < serviceType.NumMethod(); i++]. *)
Fixpoint registerMethods (table : gmap string RPCMethod) (ms : list Reflect.Method)
  : Result (gmap string RPCMethod) :=
  match ms with
  | [] => Ok table
  | method :: ms' =>
    table' ← registerMethod table method;
    registerMethods table' ms'
  end.

(** What a call of [RegisterService] leaves behind: the server, the lines
    written to the log and the error returned (nil is [None]). *)
Record Registration := {
  server : Server;
  logged : list string;
  err : option string
}.

(** [RegisterService].  The order in which [range svc.methods] visits the
    names for the log is not specified by Go; [map_to_list] fixes one. *)
Definition RegisterService (s : Server) (name : string)
    (service : option Reflect.Instance) : Result Registration :=
  match service with
  | None =>
    let svc := {| service := service; methods := ∅; serviceName := name |} in
    Ok {| server := {| services := <[name := svc]> (services s) |};
          logged := [];
          err := None |}
  | Some inst =>
    table ← registerMethods ∅ (Reflect.Methods inst);
    let svc := {| service := service; methods := table; serviceName := name |} in
    Ok {| server := {| services := <[name := svc]> (services s) |};
          logged := ("Registered service '" +:+ name +:+ "' with methods:")
                      :: ((fun kv => "  - " +:+ kv.1) <$> map_to_list table);
          err := None |}
  end.

(* ===================================================================== *)
(** ** The handlers *)
(* ===================================================================== *)

(** What a handler does that can be seen from outside: it decodes the body
    of the request into a value of a type, and it hands arguments to
    [Value.Call] for a method of a service.  The call returns the values of
    the method or panics; the panic is that of [Value.Call] refusing the
    arguments before the method runs, or that of the method: [Called]
    records the call with what it gave and does not tell the two apart. *)
Inductive Event :=
| BoundBody (t : Reflect.Type_)
| Called (method : string) (args : list Reflect.Value)
         (result : Result (list Reflect.Value)).

(** How a handler ends: with the response written by [e.JSON], or with a
    panic. *)
Inductive Outcome :=
| Responded (status : Z) (body : Body)
| Panicked (msg : string).

(** A piece of a handler: the events so far, and either the end of the
    handler (a [return e.JSON(...)] or a panic) or a value to go on with. *)
Record Step (A : Type) := MkStep {
  trace : list Event;
  next : Outcome + A
}.
Arguments MkStep {A} trace next.
Arguments trace {A} s.
Arguments next {A} s.

#[global] Instance step_ret : MRet Step := fun A a => MkStep [] (inr a).
#[global] Instance step_mbind : MBind Step := fun A B f m =>
  match next m with
  | inl o => MkStep (trace m) (inl o)
  | inr a => MkStep (trace m ++ trace (f a)) (next (f a))
  end.

(** A handler ends in an outcome. *)
Definition Handler : Type := Step Empty_set.

(** [return e.JSON(status, body)]. *)
Definition JSON {A} (status : Z) (body : Body) : Step A :=
  MkStep [] (inl (Responded status body)).

Definition lift {A} (r : Result A) : Step A :=
  match r with
  | Ok a => MkStep [] (inr a)
  | Panic msg => MkStep [] (inl (Panicked msg))
  end.

(** [arg := reflect.New(argType).Interface()], [e.BindBody(arg)] with its
    error check, and [reflect.ValueOf(arg).Elem()]. *)
Definition bindBody (e : RequestEvent) (argType : Reflect.Type_) : Step Reflect.Value :=
  match BindBody e argType with
  | inl msg =>
    MkStep [BoundBody argType]
           (inl (Responded http.StatusBadRequest
                           (BodyErrorf ("Invalid parameters: " +:+ msg))))
  | inr c =>
    MkStep [BoundBody argType] (inr {| Reflect.typ := argType; Reflect.content := c |})
  end.

(** [methodValue.Call(args)], recorded in the trace whenever there is a
    method to call. *)
Definition call (methodValue : option Reflect.Method) (args : list Reflect.Value)
  : Step (list Reflect.Value) :=
  match methodValue with
  | None => lift (Reflect.Call None args)
  | Some m =>
    let r := Reflect.Call (Some m) args in
    MkStep [Called (Reflect.Name m) args r]
           (match r with Ok results => inr results | Panic msg => inl (Panicked msg) end)
  end.

(** The lines under [// Check for error], which [handleRPC] (316-333) and
    [handleRPCGet] (376-393) both carry. *)
Definition respond (method : RPCMethod) (results : list Reflect.Value) : Handler :=
  if HasResult method then
    r1 ← lift (index results 1);
    isNil ← lift (Reflect.IsNil r1);
    if negb isNil then
      e ← lift (assertError r1);
      JSON http.StatusInternalServerError (BodyValue e)
    else
      response ← lift (index results 0);
      JSON http.StatusOK (BodyValue response)
  else
    r0 ← lift (index results 0);
    isNil ← lift (Reflect.IsNil r0);
    if negb isNil then
      e ← lift (assertError r0);
      JSON http.StatusInternalServerError (BodyValue e)
    else
      JSON http.StatusOK (BodyMap [("status", "ok")]).

Definition handleRPC (s : Server) (e : RequestEvent) (serviceName methodName : string)
  : Handler :=
  match services s !! serviceName with
  | None =>
    JSON http.StatusNotFound (BodyErrorf ("Service '" +:+ serviceName +:+ "' not found"))
  | Some svc =>
    match methods svc !! methodName with
    | None =>
      JSON http.StatusNotFound
           (BodyErrorf ("Method '" +:+ methodName +:+ "' not found in service '"
                          +:+ serviceName +:+ "'"))
    | Some method =>
      methodValue ← lift (Reflect.MethodByName (service svc)
                                               (Reflect.Name (Method method)));
      results ← (if HasParams method then
                   argType ← lift (Reflect.New (Type_ method));
                   arg ← bindBody e argType;
                   call methodValue [arg]
                 else
                   call methodValue []);
      respond method results
    end
  end.

Definition handleRPCGet (s : Server) (e : RequestEvent) (serviceName entityName id : string)
  : Handler :=
  match services s !! serviceName with
  | None =>
    JSON http.StatusNotFound (BodyErrorf ("Service '" +:+ serviceName +:+ "' not found"))
  | Some svc =>
    let methodName := "Get" +:+ entityName in
    match methods svc !! methodName with
    | None =>
      JSON http.StatusNotFound
           (BodyErrorf ("Method '" +:+ methodName +:+ "' not found in service '"
                          +:+ serviceName +:+ "'"))
    | Some method =>
      let argType := Type_ method in
      kind ← lift (Reflect.KindOf argType);
      if negb (match kind with Reflect.String => true | _ => false end) then
        JSON http.StatusBadRequest
             (BodyErrorf ("Method '" +:+ methodName
                            +:+ "' does not accept a string parameter"))
      else
        methodValue ← lift (Reflect.MethodByName (service svc)
                                                 (Reflect.Name (Method method)));
        results ← call methodValue [Reflect.ValueOfString id];
        respond method results
    end
  end.

Section Routes.
Context `{CaseTables}.

(** [handle]: [POST /{service}/{method}]. *)
Definition handle (s : Server) (e : RequestEvent) : Handler :=
  let serv := PathValue e "service" in
  let method := PathValue e "method" in
  let method := kebabToPascal method in
  handleRPC s e serv method.

(** [handleGet]: [GET /{service}/{entity}/{id}]. *)
Definition handleGet (s : Server) (e : RequestEvent) : Handler :=
  let serv := PathValue e "service" in
  let entity := PathValue e "entity" in
  let id := PathValue e "id" in
  let entity := kebabToPascal entity in
  handleRPCGet s e serv entity id.

(** [Bind]: the two routes the server installs on the router group. *)
Inductive Route :=
| POST_service_method
| GET_service_entity_id.

Definition Bind (s : Server) (r : Route) : RequestEvent -> Handler :=
  match r with
  | POST_service_method => handle s
  | GET_service_entity_id => handleGet s
  end.

End Routes.

(* ===================================================================== *)
(** ** Services used to evaluate the package *)
(* ===================================================================== *)

Module Fixture.

Definition errorType : Reflect.Type_ :=
  {| Reflect.TypeString := "error"; Reflect.TypeKind := Reflect.Interface;
     Reflect.ImplementsError := true |}.

Definition structType (name : string) : Reflect.Type_ :=
  {| Reflect.TypeString := name; Reflect.TypeKind := Reflect.Struct;
     Reflect.ImplementsError := false |}.

Definition pointerType (name : string) : Reflect.Type_ :=
  {| Reflect.TypeString := name; Reflect.TypeKind := Reflect.Pointer;
     Reflect.ImplementsError := false |}.

Definition nilError : Reflect.Value :=
  {| Reflect.typ := errorType; Reflect.content := None |}.

Definition anError (msg : string) : Reflect.Value :=
  {| Reflect.typ := errorType; Reflect.content := Some msg |}.

Definition val (t : Reflect.Type_) (payload : string) : Reflect.Value :=
  {| Reflect.typ := t; Reflect.content := Some payload |}.

Definition payload (v : Reflect.Value) : string := default "" (Reflect.content v).

Definition badCall : Result (list Reflect.Value) :=
  Panic "reflect: Call with wrong input arguments".

(** The methods of [*TestService] of [server_test.go], in the order of
    [Type.Method(i)]. *)
Definition TestRequest := structType "rpc.TestRequest".
Definition TestResponse := structType "rpc.TestResponse".
Definition StatsResponse := structType "rpc.StatsResponse".
Definition TestServicePtr := pointerType "*rpc.TestService".

Definition CreateUser : Reflect.Method :=
  {| Reflect.Name := "CreateUser"; Reflect.PkgPath := "";
     Reflect.In := [TestServicePtr; TestRequest];
     Reflect.Out := [TestResponse; errorType];
     Reflect.Func_ := fun args =>
       match args with
       | [req] => Ok [val TestResponse ("user_123 " +:+ payload req); nilError]
       | _ => badCall
       end |}.

Definition GetStats : Reflect.Method :=
  {| Reflect.Name := "GetStats"; Reflect.PkgPath := "";
     Reflect.In := [TestServicePtr];
     Reflect.Out := [StatsResponse; errorType];
     Reflect.Func_ := fun args =>
       match args with
       | [] => Ok [val StatsResponse "100 active"; nilError]
       | _ => badCall
       end |}.

Definition GetUser : Reflect.Method :=
  {| Reflect.Name := "GetUser"; Reflect.PkgPath := "";
     Reflect.In := [TestServicePtr; Reflect.stringType];
     Reflect.Out := [TestResponse; errorType];
     Reflect.Func_ := fun args =>
       match args with
       | [id] => Ok [val TestResponse (payload id +:+ " Test User test@example.com");
                     nilError]
       | _ => badCall
       end |}.

Definition InvalidMethod1 : Reflect.Method :=
  {| Reflect.Name := "InvalidMethod1"; Reflect.PkgPath := "";
     Reflect.In := [TestServicePtr; TestRequest];
     Reflect.Out := [TestResponse];
     Reflect.Func_ := fun args =>
       match args with
       | [_] => Ok [val TestResponse ""]
       | _ => badCall
       end |}.

Definition InvalidMethod2 : Reflect.Method :=
  {| Reflect.Name := "InvalidMethod2"; Reflect.PkgPath := "";
     Reflect.In := [TestServicePtr; TestRequest; Reflect.stringType];
     Reflect.Out := [TestResponse; errorType];
     Reflect.Func_ := fun args =>
       match args with
       | [_; _] => Ok [val TestResponse ""; nilError]
       | _ => badCall
       end |}.

Definition RefreshCache : Reflect.Method :=
  {| Reflect.Name := "RefreshCache"; Reflect.PkgPath := "";
     Reflect.In := [TestServicePtr];
     Reflect.Out := [errorType];
     Reflect.Func_ := fun args =>
       match args with
       | [] => Ok [nilError]
       | _ => badCall
       end |}.

Definition UpdateUser : Reflect.Method :=
  {| Reflect.Name := "UpdateUser"; Reflect.PkgPath := "";
     Reflect.In := [TestServicePtr; TestRequest];
     Reflect.Out := [TestResponse; errorType];
     Reflect.Func_ := fun args =>
       match args with
       | [req] => Ok [val TestResponse (payload req); nilError]
       | _ => badCall
       end |}.

Definition TestService : Reflect.Instance :=
  {| Reflect.InstanceType := TestServicePtr;
     Reflect.Methods := [CreateUser; GetStats; GetUser; InvalidMethod1;
                         InvalidMethod2; RefreshCache; UpdateUser] |}.

(** The methods of [*ProductsService] of the example server, over a store
    that holds no product: fetching, updating and deleting a product fail
    with the error of the store. *)
Definition Product := structType "main.Product".
Definition ListRequest := structType "main.ListRequest".
Definition UpdateRequest := structType "main.UpdateRequest".
Definition DeleteRequest := structType "main.DeleteRequest".
Definition ProductSlice : Reflect.Type_ :=
  {| Reflect.TypeString := "[]main.Product"; Reflect.TypeKind := Reflect.Slice;
     Reflect.ImplementsError := false |}.
Definition ProductsServicePtr := pointerType "*main.ProductsService".
Definition noRows : Reflect.Value := anError "sql: no rows in result set".

Definition Clean : Reflect.Method :=
  {| Reflect.Name := "Clean"; Reflect.PkgPath := "";
     Reflect.In := [ProductsServicePtr];
     Reflect.Out := [errorType];
     Reflect.Func_ := fun args =>
       match args with [] => Ok [nilError] | _ => badCall end |}.

Definition Create : Reflect.Method :=
  {| Reflect.Name := "Create"; Reflect.PkgPath := "";
     Reflect.In := [ProductsServicePtr; Product];
     Reflect.Out := [Product; errorType];
     Reflect.Func_ := fun args =>
       match args with
       | [req] => Ok [val Product (payload req); nilError]
       | _ => badCall
       end |}.

Definition Delete : Reflect.Method :=
  {| Reflect.Name := "Delete"; Reflect.PkgPath := "";
     Reflect.In := [ProductsServicePtr; DeleteRequest];
     Reflect.Out := [errorType];
     Reflect.Func_ := fun args =>
       match args with [_] => Ok [noRows] | _ => badCall end |}.

Definition GetProduct : Reflect.Method :=
  {| Reflect.Name := "GetProduct"; Reflect.PkgPath := "";
     Reflect.In := [ProductsServicePtr; Reflect.stringType];
     Reflect.Out := [Product; errorType];
     Reflect.Func_ := fun args =>
       match args with [_] => Ok [val Product ""; noRows] | _ => badCall end |}.

Definition List_ : Reflect.Method :=
  {| Reflect.Name := "List"; Reflect.PkgPath := "";
     Reflect.In := [ProductsServicePtr; ListRequest];
     Reflect.Out := [ProductSlice; errorType];
     Reflect.Func_ := fun args =>
       match args with [_] => Ok [val ProductSlice "[]"; nilError] | _ => badCall end |}.

Definition Update : Reflect.Method :=
  {| Reflect.Name := "Update"; Reflect.PkgPath := "";
     Reflect.In := [ProductsServicePtr; UpdateRequest];
     Reflect.Out := [Product; errorType];
     Reflect.Func_ := fun args =>
       match args with [_] => Ok [val Product ""; noRows] | _ => badCall end |}.

Definition ProductsService : Reflect.Instance :=
  {| Reflect.InstanceType := ProductsServicePtr;
     Reflect.Methods := [Clean; Create; Delete; GetProduct; List_; Update] |}.

(** A service whose one method takes an id and returns a failure only. *)
Definition SessionsServicePtr := pointerType "*main.SessionsService".

Definition GetTouched : Reflect.Method :=
  {| Reflect.Name := "GetTouched"; Reflect.PkgPath := "";
     Reflect.In := [SessionsServicePtr; Reflect.stringType];
     Reflect.Out := [errorType];
     Reflect.Func_ := fun args =>
       match args with [_] => Ok [nilError] | _ => badCall end |}.

Definition SessionsService : Reflect.Instance :=
  {| Reflect.InstanceType := SessionsServicePtr;
     Reflect.Methods := [GetTouched] |}.

(** The server a registration leaves; the server as it was, should the
    registration panic. *)
Definition registered (s : Server) (name : string) (service : option Reflect.Instance)
  : Server :=
  match RegisterService s name service with
  | Ok reg => server reg
  | Panic _ => s
  end.

Definition testServer : Server := registered NewServer "test" (Some TestService).
Definition productsServer : Server :=
  registered NewServer "products" (Some ProductsService).
Definition sessionsServer : Server :=
  registered NewServer "sessions" (Some SessionsService).

(** A request with the given path values whose body decodes to [body]. *)
Definition request (path : list (string * string)) (body : string) : RequestEvent :=
  {| PathValue := fun k => default "" (snd <$> find (fun kv => String.eqb kv.1 k) path);
     BindBody := fun _ => inr (Some body) |}.

End Fixture.

(* ===================================================================== *)
(** ** The notions of the specification *)
(* ===================================================================== *)

(** The eligibility rule of the introspector, in the words of the
    specification: the method is exported, it takes no parameter or one
    parameter beyond the receiver, and it returns one value or two values,
    the last of which implements [error]. *)
Definition exported (m : Reflect.Method) : Prop := Reflect.PkgPath m = "".

Definition takes_zero_or_one_parameter (m : Reflect.Method) : Prop :=
  ∃ receiver params,
    Reflect.In m = receiver :: params ∧ (length params = 0 ∨ length params = 1)%nat.

Definition returns_failure_last (m : Reflect.Method) : Prop :=
  ∃ leading failure,
    Reflect.Out m = leading ++ [failure] ∧
    (length leading = 0 ∨ length leading = 1)%nat ∧
    Reflect.ImplementsError failure = true.

Definition eligible (m : Reflect.Method) : Prop :=
  exported m ∧ takes_zero_or_one_parameter m ∧ returns_failure_last m.

(** The descriptor of an eligible method, read off its signature. *)
Definition descriptor (m : Reflect.Method) : RPCMethod :=
  {| Method := m;
     Type_ := match Reflect.In m with [_; t] => Some t | _ => None end;
     HasParams := match Reflect.In m with [_; _] => true | _ => false end;
     HasResult := match Reflect.Out m with [_; _] => true | _ => false end;
     ResultType := match Reflect.Out m with [r; _] => Some r | _ => None end |}.

(** A descriptor stored under [key] is consistent: the flags tell whether
    the types are there, the types are those of the signature, and the key
    is the name of the method. *)
Definition consistent (key : string) (info : RPCMethod) : Prop :=
  (HasParams info = true ↔ Type_ info ≠ None) ∧
  (∀ t, Type_ info = Some t → ∃ receiver, Reflect.In (Method info) = [receiver; t]) ∧
  (HasResult info = true ↔ ResultType info ≠ None) ∧
  (∀ r, ResultType info = Some r → ∃ failure, Reflect.Out (Method info) = [r; failure]) ∧
  key = Reflect.Name (Method info).

(** The servers a program can hold: package [rpc] makes them with
    [NewServer] and changes them with [RegisterService] only. *)
Inductive reachable : Server → Prop :=
| reachable_new : reachable NewServer
| reachable_register s name service reg :
    reachable s →
    RegisterService s name service = Ok reg →
    reachable (server reg).

(** What the Go type system gives for an instance: the names of its
    methods are distinct, and a call that returns gives values of the
    result types of the method. *)
Definition well_typed_method (m : Reflect.Method) : Prop :=
  ∀ args results, Reflect.Func_ m args = Ok results →
                  Reflect.typ <$> results = Reflect.Out m.

Definition well_typed_instance (inst : Reflect.Instance) : Prop :=
  NoDup (Reflect.Name <$> Reflect.Methods inst) ∧
  Forall well_typed_method (Reflect.Methods inst).

Definition well_typed_server (s : Server) : Prop :=
  ∀ name svc inst,
    services s !! name = Some svc → service svc = Some inst →
    well_typed_instance inst.

(** Every entry of a table of a reachable server is the descriptor of an
    eligible method of the instance of its service, under its name. *)
Definition service_inv (svc : RPCService) : Prop :=
  ∀ k info, methods svc !! k = Some info →
    ∃ inst, service svc = Some inst ∧
            Method info ∈ Reflect.Methods inst ∧
            Reflect.Name (Method info) = k ∧
            eligible (Method info) ∧
            info = descriptor (Method info).

(** A name is offered by an instance when one of its eligible methods
    bears it. *)
Definition offered (service : option Reflect.Instance) (k : string) : Prop :=
  ∃ inst m, service = Some inst ∧ m ∈ Reflect.Methods inst ∧
            Reflect.Name m = k ∧ eligible m.

(** The conversion of a slug in the words of the specification, for a slug
    of ASCII characters: split at the hyphens, capitalize the first
    character of every token, lowercase the rest, concatenate. *)
Fixpoint tokens (current : string) (s : string) : list string :=
  match s with
  | EmptyString => [current]
  | String c s' =>
    if Ascii.eqb c "-"%char then current :: tokens EmptyString s'
    else tokens (current +:+ String c EmptyString) s'
  end.

Definition upper_char (c : ascii) : ascii :=
  if (("a" <=? c) && (c <=? "z"))%char
  then ascii_of_nat (nat_of_ascii c - 32) else c.

Definition lower_char (c : ascii) : ascii :=
  if (("A" <=? c) && (c <=? "Z"))%char
  then ascii_of_nat (nat_of_ascii c + 32) else c.

Fixpoint lowercase (s : string) : string :=
  match s with
  | EmptyString => EmptyString
  | String c s' => String (lower_char c) (lowercase s')
  end.

Definition capitalize (token : string) : string :=
  match token with
  | EmptyString => EmptyString
  | String c rest => String (upper_char c) (lowercase rest)
  end.

Definition pascal_of_slug (slug : string) : string :=
  String.concat "" (capitalize <$> tokens "" slug).

Definition ascii_string (s : string) : Prop :=
  Forall (fun b => b < 128) (bytes_of s).

(** The kinds of Go whose values can be nil: channels, functions,
    interfaces, maps, pointers and slices.  A failure of such a kind is
    empty when it is nil; a failure of another kind, such as a struct that
    implements [error], is never empty. *)
Definition has_nil (k : Reflect.Kind) : bool :=
  match k with
  | Reflect.Chan | Reflect.Func | Reflect.Interface | Reflect.Map
  | Reflect.Pointer | Reflect.Slice | Reflect.UnsafePointer => true
  | _ => false
  end.

(** What [Value.Call] on a method leaves in the trace and hands to
    [respond]. *)
Definition called (m : Reflect.Method) (args : list Reflect.Value)
    (before : list Event) (info : RPCMethod) : Handler :=
  match Reflect.Func_ m args with
  | Ok results =>
    MkStep (before ++ [Called (Reflect.Name m) args (Ok results)])
           (next (respond info results))
  | Panic msg =>
    MkStep (before ++ [Called (Reflect.Name m) args (Panic msg)]) (inl (Panicked msg))
  end.

Section ResolvedName.
Context `{CaseTables}.

(** The method name a route looks up in the table of the service. *)
Definition resolvedName (r : Route) (e : RequestEvent) : string :=
  match r with
  | POST_service_method => kebabToPascal (PathValue e "method")
  | GET_service_entity_id => "Get" +:+ kebabToPascal (PathValue e "entity")
  end.

End ResolvedName.

(** The name of a method written as a slug: lowercase, with a hyphen before
    every letter that was uppercase, the first character apart. *)
Definition is_upper (c : ascii) : bool := (("A" <=? c) && (c <=? "Z"))%char.
Definition is_lower (c : ascii) : bool := (("a" <=? c) && (c <=? "z"))%char.

Fixpoint kebab_tail (s : string) : string :=
  match s with
  | EmptyString => EmptyString
  | String c s' =>
    if is_upper c then String "-" (String (lower_char c) (kebab_tail s'))
    else String c (kebab_tail s')
  end.

Definition kebab_of (name : string) : string :=
  match name with
  | EmptyString => EmptyString
  | String c s' => String (lower_char c) (kebab_tail s')
  end.

Definition hyphen_free (s : string) : Prop :=
  Forall (fun b => b ≠ 45) (bytes_of s).

Definition not_lower_first (name : string) : Prop :=
  match name with
  | EmptyString => True
  | String c _ => is_lower c = false
  end.

(* ===================================================================== *)
(** ** More services and requests to evaluate the package *)
(* ===================================================================== *)

Module Orders.

(** A service with a method whose failure is a struct that implements
    [error], and a method [Get<Entity>] whose parameter is a struct. *)
Definition Refusal : Reflect.Type_ :=
  {| Reflect.TypeString := "main.Refusal"; Reflect.TypeKind := Reflect.Struct;
     Reflect.ImplementsError := true |}.
Definition CancelRequest := Fixture.structType "main.CancelRequest".
Definition OrderRequest := Fixture.structType "main.OrderRequest".
Definition Order := Fixture.structType "main.Order".
Definition OrdersServicePtr := Fixture.pointerType "*main.OrdersService".

Definition refused : Reflect.Value :=
  {| Reflect.typ := Refusal; Reflect.content := Some "order already shipped" |}.

Definition Cancel : Reflect.Method :=
  {| Reflect.Name := "Cancel"; Reflect.PkgPath := "";
     Reflect.In := [OrdersServicePtr; CancelRequest];
     Reflect.Out := [Refusal];
     Reflect.Func_ := fun args =>
       match args with [_] => Ok [refused] | _ => Fixture.badCall end |}.

Definition GetOrder : Reflect.Method :=
  {| Reflect.Name := "GetOrder"; Reflect.PkgPath := "";
     Reflect.In := [OrdersServicePtr; OrderRequest];
     Reflect.Out := [Order; Fixture.errorType];
     Reflect.Func_ := fun args =>
       match args with
       | [_] => Ok [Fixture.val Order ""; Fixture.nilError]
       | _ => Fixture.badCall
       end |}.

Definition OrdersService : Reflect.Instance :=
  {| Reflect.InstanceType := OrdersServicePtr;
     Reflect.Methods := [Cancel; GetOrder] |}.

Definition ordersServer : Server :=
  Fixture.registered NewServer "orders" (Some OrdersService).

(** A request with the given path values whose body does not decode. *)
Definition undecodable (path : list (string * string)) (msg : string) : RequestEvent :=
  {| PathValue := fun k => default "" (snd <$> find (fun kv => String.eqb kv.1 k) path);
     BindBody := fun _ => inl msg |}.

End Orders.

Module Items.

(** A service whose method [Get<Entity>] takes an id of a named string
    type, [type ItemID string]: the kind of the parameter is [String], and
    [Value.Call] takes a [main.ItemID] for it but no [string]. *)
Definition ItemID : Reflect.Type_ :=
  {| Reflect.TypeString := "main.ItemID"; Reflect.TypeKind := Reflect.String;
     Reflect.ImplementsError := false |}.
Definition Item := Fixture.structType "main.Item".
Definition ItemsServicePtr := Fixture.pointerType "*main.ItemsService".

Definition GetItem : Reflect.Method :=
  {| Reflect.Name := "GetItem"; Reflect.PkgPath := "";
     Reflect.In := [ItemsServicePtr; ItemID];
     Reflect.Out := [Item; Fixture.errorType];
     Reflect.Func_ := fun args =>
       match args with
       | [id] =>
         if String.eqb (Reflect.TypeString (Reflect.typ id)) (Reflect.TypeString ItemID)
         then Ok [Fixture.val Item (Fixture.payload id); Fixture.nilError]
         else Panic ("reflect: Call using " +:+ Reflect.TypeString (Reflect.typ id)
                       +:+ " as type " +:+ Reflect.TypeString ItemID)
       | _ => Fixture.badCall
       end |}.

Definition ItemsService : Reflect.Instance :=
  {| Reflect.InstanceType := ItemsServicePtr;
     Reflect.Methods := [GetItem] |}.

Definition itemsServer : Server :=
  Fixture.registered NewServer "items" (Some ItemsService).

End Items.

(* ===================================================================== *)
(** ** Package [dsl]: the query builder and the collection builder *)
(* ===================================================================== *)

(** Go's [int], 32 or 64 bits wide: the integers from [-2^(w-1)] to
    [2^(w-1) - 1], with the arithmetic wrapping around. *)
Class IntSize := {
  intBits : Z;
  intBits_cases : intBits = 32 ∨ intBits = 64
}.

(** What package [dsl] takes from the libraries: [strings.TrimSpace], and
    the text [fmt] writes for the errors of an expansion under [%v]. *)
Class DslLibrary := {
  TrimSpace : string → string;
  fmtErrs : gmap string string → string
}.

Module Dsl.

Definition wrap `{IntSize} (z : Z) : Z :=
  (z + 2 ^ (intBits - 1)) mod 2 ^ intBits - 2 ^ (intBits - 1).

Definition inInt `{IntSize} (z : Z) : Prop :=
  - 2 ^ (intBits - 1) ≤ z < 2 ^ (intBits - 1).

(** [dbx.Params] and the field maps of records: [map[string]any]. *)
Abbreviation Params := (gmap string string).

(** [QueryBuilder].  A nil slice of params is the empty list. *)
Record QueryBuilder := {
  filter : string;
  page : Z;
  perPage : Z;
  expand : string;
  sort : string;
  params : list Params
}.

(** The builders live on the heap: [Query] returns a pointer to a new
    one, and the methods write through their receiver and return it.
    A pointer is an address; an address the heap does not hold is the nil
    pointer. *)
Abbreviation Heap := (gmap nat QueryBuilder).

Definition Query (filter : string) (h : Heap) : nat * Heap :=
  let q := fresh (dom h) in
  (q, <[q := {| filter := filter; page := 0; perPage := 0; expand := "";
                sort := ""; params := [] |}]> h).

(** A method that assigns to fields of its receiver and returns it. *)
Definition assign (q : nat) (f : QueryBuilder → QueryBuilder) (h : Heap)
  : Result (nat * Heap) :=
  match h !! q with
  | Some b => Ok (q, <[q := f b]> h)
  | None => Panic "runtime error: invalid memory address or nil pointer dereference"
  end.

Definition Page (q : nat) (page' perPage' : Z) : Heap → Result (nat * Heap) :=
  assign q (fun b => {| filter := filter b; page := page'; perPage := perPage';
                        expand := expand b; sort := sort b; params := params b |}).

Definition Expand (q : nat) (expand' : string) : Heap → Result (nat * Heap) :=
  assign q (fun b => {| filter := filter b; page := page b; perPage := perPage b;
                        expand := expand'; sort := sort b; params := params b |}).

Definition Sort (q : nat) (sort' : string) : Heap → Result (nat * Heap) :=
  assign q (fun b => {| filter := filter b; page := page b; perPage := perPage b;
                        expand := expand b; sort := sort'; params := params b |}).

Definition Params_ (q : nat) (params' : list Params) : Heap → Result (nat * Heap) :=
  assign q (fun b => {| filter := filter b; page := page b; perPage := perPage b;
                        expand := expand b; sort := sort b; params := params' |}).

(** A call in a chain [q.Page(..).Sort(..)...], and the chain run from a
    pointer: every call is made on the pointer the call before returned. *)
Inductive Setter :=
| CallPage (page perPage : Z)
| CallExpand (expand : string)
| CallSort (sort : string)
| CallParams (params : list Params).

Definition callSetter (c : Setter) (q : nat) : Heap → Result (nat * Heap) :=
  match c with
  | CallPage p n => Page q p n
  | CallExpand x => Expand q x
  | CallSort x => Sort q x
  | CallParams ps => Params_ q ps
  end.

Fixpoint chain (calls : list Setter) (q : nat) (h : Heap) : Result (nat * Heap) :=
  match calls with
  | [] => Ok (q, h)
  | c :: calls' =>
    match callSetter c q h with
    | Ok (q', h') => chain calls' q' h'
    | Panic msg => Panic msg
    end
  end.

(** The field values a chain of calls leaves, the last call of each method
    deciding. *)
Fixpoint settled (calls : list Setter) (b : QueryBuilder) : QueryBuilder :=
  match calls with
  | [] => b
  | c :: calls' =>
    settled calls'
      match c with
      | CallPage p n =>
        {| filter := filter b; page := p; perPage := n;
           expand := expand b; sort := sort b; params := params b |}
      | CallExpand x =>
        {| filter := filter b; page := page b; perPage := perPage b;
           expand := x; sort := sort b; params := params b |}
      | CallSort x =>
        {| filter := filter b; page := page b; perPage := perPage b;
           expand := expand b; sort := x; params := params b |}
      | CallParams ps =>
        {| filter := filter b; page := page b; perPage := perPage b;
           expand := expand b; sort := sort b; params := ps |}
      end
  end.

(** The first lines of [List]: the offset of the page. *)
Definition listOffset `{IntSize} (query : QueryBuilder) : Z :=
  let offset := wrap (wrap (page query - 1) * perPage query) in
  if offset <? 0 then 0 else offset.

Section Collection.
Context `{IntSize} `{DslLibrary}.
Context {DB Rec Coll Exp : Type}.

(** [core.App], by the methods package [dsl] calls, over the state [DB]
    of the application; with it the functions of [core] and [dbx] that
    make and fill records and expressions.  A record is a pointer in Go:
    a method that writes to the record returns the record as written. *)
Record App := {
  FindRecordById : DB → string → string → (Rec + string) * DB;
  FindRecordsByFilter :
    DB → string → string → string → Z → Z → list Params → (list Rec + string) * DB;
  ExpandRecord : DB → Rec → list string → (Rec * gmap string string) * DB;
  FindCollectionByNameOrId : DB → string → (Coll + string) * DB;
  Save : DB → Rec → (Rec * option string) * DB;
  Delete_ : DB → Rec → option string * DB;
  CountRecords : DB → string → Exp → (Z + string) * DB;
  NewRecord : Coll → Rec;
  Load : Rec → Params → Rec;
  NewExp : string → list Params → Exp
}.

(** [CollectionQueryBuilder]; its methods only read it. *)
Record CollectionQueryBuilder := {
  app : App;
  collection : string
}.

Definition Collection (app : App) (collection : string) : CollectionQueryBuilder :=
  {| app := app; collection := collection |}.

Definition One (c : CollectionQueryBuilder) (id : string) (db : DB)
  : (Rec + string) * DB :=
  FindRecordById (app c) db (collection c) id.

(** [expands := strings.Split(query.expand, ",")] with every entry
    trimmed. *)
Definition expandsOf (query : QueryBuilder) : list string :=
  TrimSpace <$> Strings.Split (expand query) ",".

Definition First (c : CollectionQueryBuilder) (query : QueryBuilder)
    (args : list Params) (db : DB) : (Rec + string) * DB :=
  let '(found, db) :=
    FindRecordsByFilter (app c) db (collection c) (filter query) (sort query) 1 0 args in
  match found with
  | inr err => (inr err, db)
  | inl [] => (inr "no records found", db)
  | inl (record :: _) =>
    if negb (String.eqb (expand query) "") then
      let '((record, errs), db) := ExpandRecord (app c) db record (expandsOf query) in
      if (0 <? size errs)%nat
      then (inr ("failed to expand relations: " +:+ fmtErrs errs), db)
      else (inl record, db)
    else (inl record, db)
  end.

(** The loop of [List] over the records: it stops at the first record
    whose expansion reports errors. *)
Fixpoint expandAll (a : App) (db : DB) (records : list Rec) (expands : list string)
  : (list Rec + string) * DB :=
  match records with
  | [] => (inl [], db)
  | record :: records' =>
    let '((record, errs), db) := ExpandRecord a db record expands in
    if (0 <? size errs)%nat
    then (inr ("failed to expand relations: " +:+ fmtErrs errs), db)
    else
      let '(rest, db) := expandAll a db records' expands in
      match rest with
      | inl rest => (inl (record :: rest), db)
      | inr err => (inr err, db)
      end
  end.

Definition List (c : CollectionQueryBuilder) (query : QueryBuilder)
    (args : list Params) (db : DB) : (list Rec + string) * DB :=
  let offset := listOffset query in
  let '(found, db) :=
    FindRecordsByFilter (app c) db (collection c) (filter query) (sort query)
                        (perPage query) offset args in
  match found with
  | inr err => (inr err, db)
  | inl records =>
    if negb (String.eqb (expand query) "")
    then expandAll (app c) db records (expandsOf query)
    else (inl records, db)
  end.

Definition Create (c : CollectionQueryBuilder) (recordMap : Params) (db : DB)
  : (Rec + string) * DB :=
  let '(found, db) := FindCollectionByNameOrId (app c) db (collection c) in
  match found with
  | inr err => (inr ("collection not found: " +:+ err), db)
  | inl coll =>
    let record := NewRecord (app c) coll in
    let record := Load (app c) record recordMap in
    let '((record, err), db) := Save (app c) db record in
    match err with
    | Some err => (inr err, db)
    | None => (inl record, db)
    end
  end.

Definition Update (c : CollectionQueryBuilder) (id : string) (recordMap : Params)
    (db : DB) : (Rec + string) * DB :=
  let '(found, db) := FindRecordById (app c) db (collection c) id in
  match found with
  | inr err => (inr err, db)
  | inl record =>
    let record := Load (app c) record recordMap in
    let '((record, err), db) := Save (app c) db record in
    match err with
    | Some err => (inr err, db)
    | None => (inl record, db)
    end
  end.

Definition Delete (c : CollectionQueryBuilder) (id : string) (db : DB)
  : option string * DB :=
  let '(found, db) := FindRecordById (app c) db (collection c) id in
  match found with
  | inr err => (Some err, db)
  | inl record => Delete_ (app c) db record
  end.

Definition Count (c : CollectionQueryBuilder) (filter : string) (args : list Params)
    (db : DB) : (Z + string) * DB :=
  CountRecords (app c) db (collection c) (NewExp (app c) filter args).

End Collection.

End Dsl.

#[global] Instance int64 : IntSize := {| intBits := 64; intBits_cases := or_intror eq_refl |}.

(** An application that keeps its records, an id and a text each, in a
    list; it serves to evaluate the package. *)
Module MemoryApp.

Definition DB : Type := list (string * string).

Definition find (db : DB) (id : string) : (string * string) + string :=
  match List.find (fun r => String.eqb r.1 id) db with
  | Some r => inl r
  | None => inr "sql: no rows in result set"
  end.

Definition memoryApp : Dsl.App (DB := DB) (Rec := string * string)
                               (Coll := string) (Exp := string) :=
  {| Dsl.FindRecordById := fun db _ id => (find db id, db);
     Dsl.FindRecordsByFilter := fun db _ _ _ limit offset _ =>
       (inl (take (Z.to_nat limit) (drop (Z.to_nat offset) db)), db);
     Dsl.ExpandRecord := fun db r expands =>
       ((r, if bool_decide ("owner" ∈ expands) then {["owner" := "no such relation"]}
            else ∅), db);
     Dsl.FindCollectionByNameOrId := fun db name =>
       (if String.eqb name "products" then inl name else inr "no such collection", db);
     Dsl.Save := fun db r => ((r, None), r :: List.filter (fun x => negb (String.eqb x.1 r.1)) db);
     Dsl.Delete_ := fun db r => (None, List.filter (fun x => negb (String.eqb x.1 r.1)) db);
     Dsl.CountRecords := fun db _ _ => (inl (Z.of_nat (length db)), db);
     Dsl.NewRecord := fun _ => ("new", "");
     Dsl.Load := fun r fields => (r.1, default r.2 (fields !! "name"));
     Dsl.NewExp := fun filter _ => filter |}.

(** [TrimSpace] as it is on strings of ASCII characters: the bytes 9 to 13
    and 32 are cut from both ends; and [%v] on a map with one entry. *)
Definition asciiSpace (c : ascii) : bool :=
  let b := byte_val c in ((9 <=? b) && (b <=? 13)) || (b =? 32).

Fixpoint trimLeft (s : string) : string :=
  match s with
  | String c s' => if asciiSpace c then trimLeft s' else s
  | EmptyString => EmptyString
  end.

Definition trimSpace (s : string) : string :=
  String.rev (trimLeft (String.rev (trimLeft s))).

#[global] Instance asciiLibrary : DslLibrary :=
  {| TrimSpace := trimSpace;
     fmtErrs := fun errs =>
       "map[" +:+ String.concat " " ((fun kv => kv.1 +:+ ":" +:+ kv.2) <$> map_to_list errs)
              +:+ "]" |}.

Definition products : Dsl.CollectionQueryBuilder := Dsl.Collection memoryApp "products".

Definition stock : DB := [("p1", "tea"); ("p2", "coffee"); ("p3", "cocoa")].

End MemoryApp.

(* ===================================================================== *)
(** ** Registration *)
(* ===================================================================== *)

Lemma eligible_shape m :
  eligible m ↔
  Reflect.PkgPath m = "" ∧
  ((∃ r, Reflect.In m = [r]) ∨ (∃ r t, Reflect.In m = [r; t])) ∧
  ((∃ f, Reflect.Out m = [f] ∧ Reflect.ImplementsError f = true) ∨
   (∃ v f, Reflect.Out m = [v; f] ∧ Reflect.ImplementsError f = true)).
Proof.
  unfold eligible, exported, takes_zero_or_one_parameter, returns_failure_last.
  split.
  - intros (Hpkg & (r & ps & Hin & Hps) & (ld & f & Hout & Hld & Hf)).
    split; [done|]. split.
    + destruct ps as [|p [|? ?]]; simpl in *; [left|right|lia]; eauto.
    + destruct ld as [|v [|? ?]]; simpl in *; [left|right|lia]; eauto.
  - intros (Hpkg & Hin & Hout). split; [done|]. split.
    + destruct Hin as [(r & ->)|(r & t & ->)].
      * exists r, []. auto.
      * exists r, [t]. auto.
    + destruct Hout as [(f & -> & Hf)|(v & f & -> & Hf)].
      * exists [], f. auto.
      * exists [v], f. auto.
Qed.

(** One round of the loop stores the descriptor of an eligible method under
    its name and skips any other method. *)
Lemma registerMethod_cases table m :
  (eligible m ∧ registerMethod table m = Ok (<[Reflect.Name m := descriptor m]> table)) ∨
  (¬ eligible m ∧ registerMethod table m = Ok table).
Proof.
  rewrite eligible_shape. unfold registerMethod, descriptor, Reflect.NumIn, Reflect.NumOut,
    Reflect.OutAt, Reflect.InAt.
  destruct (String.eqb_spec (Reflect.PkgPath m) "") as [Hpkg|Hpkg]; simpl;
    [|right; split; [intros (? & _); done|done]].
  destruct (Reflect.In m) as [|r [|t [|? ?]]] eqn:Hin; simpl;
    try (right; split; [|done]; intros (_ & [(? & ?)|(? & ? & ?)] & _); done).
  - destruct (Reflect.Out m) as [|f [|f' [|? ?]]] eqn:Hout; simpl;
      try (right; split; [|done];
           intros (_ & _ & [(? & ? & ?)|(? & ? & ? & ?)]); done).
    + destruct (Reflect.ImplementsError f) eqn:Hf; simpl.
      * left. split; [|done]. split; [done|]. split; [left; eauto|left; eauto].
      * right. split; [|done].
        intros (_ & _ & [(? & ? & ?)|(? & ? & ? & ?)]); simplify_eq. congruence.
    + destruct (Reflect.ImplementsError f') eqn:Hf; simpl.
      * left. split; [|done]. split; [done|]. split; [left; eauto|right; eauto].
      * right. split; [|done].
        intros (_ & _ & [(? & ? & ?)|(? & ? & ? & ?)]); simplify_eq. congruence.
  - destruct (Reflect.Out m) as [|f [|f' [|? ?]]] eqn:Hout; simpl;
      try (right; split; [|done];
           intros (_ & _ & [(? & ? & ?)|(? & ? & ? & ?)]); done).
    + destruct (Reflect.ImplementsError f) eqn:Hf; simpl.
      * left. split; [|done]. split; [done|]. split; [right; eauto|left; eauto].
      * right. split; [|done].
        intros (_ & _ & [(? & ? & ?)|(? & ? & ? & ?)]); simplify_eq. congruence.
    + destruct (Reflect.ImplementsError f') eqn:Hf; simpl.
      * left. split; [|done]. split; [done|]. split; [right; eauto|right; eauto].
      * right. split; [|done].
        intros (_ & _ & [(? & ? & ?)|(? & ? & ? & ?)]); simplify_eq. congruence.
Qed.

Lemma registerMethod_total table m : ∃ table', registerMethod table m = Ok table'.
Proof. destruct (registerMethod_cases table m) as [[_ ->]|[_ ->]]; eauto. Qed.

(** The loop never panics. *)
Lemma registerMethods_total ms : ∀ table, ∃ table', registerMethods table ms = Ok table'.
Proof.
  induction ms as [|m ms IH]; intros table; simpl; [eauto|].
  destruct (registerMethod_total table m) as [table1 ->]. simpl. apply IH.
Qed.

(** An entry of the table after the loop was there before, or is the
    descriptor of an eligible method of the list, stored under its name. *)
Lemma registerMethods_lookup_Some ms : ∀ table table' k info,
  registerMethods table ms = Ok table' →
  table' !! k = Some info →
  table !! k = Some info ∨
  ∃ m, m ∈ ms ∧ Reflect.Name m = k ∧ eligible m ∧ info = descriptor m.
Proof.
  induction ms as [|m ms IH]; intros table table' k info Hreg Hk; simpl in Hreg.
  - simplify_eq. by left.
  - destruct (registerMethod_cases table m) as [[Hel Hm]|[Hel Hm]];
      rewrite Hm in Hreg; simpl in Hreg;
      destruct (IH _ _ _ _ Hreg Hk) as [Hold|(m' & Hin & ? & ? & ?)];
      try (right; exists m'; split; [by apply list_elem_of_further|done]).
    + destruct (decide (Reflect.Name m = k)) as [<-|Hne].
      * rewrite lookup_insert_eq in Hold. simplify_eq.
        right. exists m. split; [apply list_elem_of_here|done].
      * rewrite lookup_insert_ne in Hold by done. by left.
    + by left.
Qed.

(** Every name of the table before the loop, and the name of every eligible
    method of the list, is in the table after the loop. *)
Lemma registerMethods_lookup_is_Some ms : ∀ table table' k,
  registerMethods table ms = Ok table' →
  is_Some (table !! k) ∨ (∃ m, m ∈ ms ∧ Reflect.Name m = k ∧ eligible m) →
  is_Some (table' !! k).
Proof.
  induction ms as [|m ms IH]; intros table table' k Hreg Hk; simpl in Hreg.
  - simplify_eq. destruct Hk as [?|(m & Hin & _)]; [done|]. by apply elem_of_nil in Hin.
  - destruct (registerMethod_cases table m) as [[Hel Hm]|[Hel Hm]];
      rewrite Hm in Hreg; simpl in Hreg; apply (IH _ _ _ Hreg).
    + destruct Hk as [Hk|(m' & Hin & Hname & Hel')].
      * left. destruct (decide (Reflect.Name m = k)) as [<-|Hne].
        -- rewrite lookup_insert_eq. eauto.
        -- by rewrite lookup_insert_ne.
      * apply elem_of_cons in Hin as [->|Hin].
        -- left. rewrite <- Hname, lookup_insert_eq. eauto.
        -- right. eauto.
    + destruct Hk as [Hk|(m' & Hin & Hname & Hel')]; [by left|].
      apply elem_of_cons in Hin as [->|Hin]; [done|]. right. eauto.
Qed.

(** A name that no method of the list bears keeps its entry. *)
Lemma registerMethods_lookup_other ms : ∀ table table' k,
  registerMethods table ms = Ok table' →
  (∀ m, m ∈ ms → Reflect.Name m ≠ k) →
  table' !! k = table !! k.
Proof.
  induction ms as [|m ms IH]; intros table table' k Hreg Hk; simpl in Hreg.
  - by simplify_eq.
  - destruct (registerMethod_cases table m) as [[Hel Hm]|[Hel Hm]];
      rewrite Hm in Hreg; simpl in Hreg.
    + rewrite (IH _ _ _ Hreg) by (intros; apply Hk; by apply list_elem_of_further).
      apply lookup_insert_ne, Hk, list_elem_of_here.
    + apply (IH _ _ _ Hreg). intros; apply Hk; by apply list_elem_of_further.
Qed.

(** When the names of the list are distinct, every eligible method of the
    list has its own descriptor in the table after the loop. *)
Lemma registerMethods_lookup_eligible ms : ∀ table table' m,
  NoDup (Reflect.Name <$> ms) →
  registerMethods table ms = Ok table' →
  m ∈ ms → eligible m →
  table' !! Reflect.Name m = Some (descriptor m).
Proof.
  induction ms as [|m0 ms IH]; intros table table' m Hnd Hreg Hin Hel; simpl in Hreg.
  - by apply elem_of_nil in Hin.
  - rewrite fmap_cons in Hnd. apply NoDup_cons in Hnd as [Hfresh Hnd].
    apply elem_of_cons in Hin as [->|Hin].
    + destruct (registerMethod_cases table m0) as [[_ Hm]|[Hnel _]]; [|done].
      rewrite Hm in Hreg; simpl in Hreg.
      rewrite (registerMethods_lookup_other _ _ _ _ Hreg).
      * apply lookup_insert_eq.
      * intros m' Hin' Heq. apply Hfresh. rewrite <- Heq.
        by apply list_elem_of_fmap_2.
    + destruct (registerMethod_total table m0) as [table1 Hm].
      rewrite Hm in Hreg; simpl in Hreg. by eapply IH.
Qed.

(** [RegisterService] returns: it stores under [name] a descriptor with the
    instance, the name and the table of the loop over the methods of the
    instance (the empty table for a nil instance), and its error is nil. *)
Lemma RegisterService_returns s name service :
  ∃ table,
    match service with
    | None => table = ∅
    | Some inst => registerMethods ∅ (Reflect.Methods inst) = Ok table
    end ∧
    ∃ log,
      RegisterService s name service =
      Ok {| server := {| services :=
                           <[name := {| service := service; methods := table;
                                        serviceName := name |}]> (services s) |};
            logged := log; err := None |}.
Proof.
  unfold RegisterService. destruct service as [inst|].
  - destruct (registerMethods_total (Reflect.Methods inst) ∅) as [table Htable].
    exists table. split; [done|]. rewrite Htable. simpl. eauto.
  - exists ∅. eauto.
Qed.

Lemma descriptor_consistent m : eligible m → consistent (Reflect.Name m) (descriptor m).
Proof.
  rewrite eligible_shape. intros (_ & Hin & Hout). unfold consistent, descriptor; simpl.
  destruct Hin as [(r & ->)|(r & t & ->)];
    destruct Hout as [(f & -> & _)|(v & f & -> & _)];
    repeat split; try done; try (intros; simplify_eq; eauto).
Qed.

Lemma reachable_service_inv s :
  reachable s → ∀ name svc, services s !! name = Some svc → service_inv svc.
Proof.
  induction 1 as [|s name service reg _ IH Hreg]; intros n svc Hsvc.
  - simpl in Hsvc. by rewrite lookup_empty in Hsvc.
  - destruct (RegisterService_returns s name service) as (table & Htable & log & Heq).
    rewrite Heq in Hreg. simplify_eq. simpl in Hsvc.
    destruct (decide (name = n)) as [->|Hne].
    + rewrite lookup_insert_eq in Hsvc. simplify_eq.
      intros k info Hk. simpl in *. destruct service as [inst|].
      * destruct (registerMethods_lookup_Some _ _ _ _ _ Htable Hk)
          as [Hempty|(m & Hin & Hname & Hel & ->)].
        -- by rewrite lookup_empty in Hempty.
        -- exists inst. done.
      * subst table. by rewrite lookup_empty in Hk.
    + rewrite lookup_insert_ne in Hsvc by done. by eapply IH.
Qed.

Lemma lookupMethod_NoDup ms m :
  NoDup (Reflect.Name <$> ms) → m ∈ ms →
  Reflect.lookupMethod ms (Reflect.Name m) = Some m.
Proof.
  induction ms as [|m0 ms IH]; intros Hnd Hin; [by apply elem_of_nil in Hin|].
  rewrite fmap_cons in Hnd. apply NoDup_cons in Hnd as [Hfresh Hnd]. simpl.
  apply elem_of_cons in Hin as [->|Hin].
  - by rewrite String.eqb_refl.
  - destruct (String.eqb_spec (Reflect.Name m0) (Reflect.Name m)) as [Heq|_]; [|by apply IH].
    exfalso. apply Hfresh. rewrite Heq. by apply list_elem_of_fmap_2.
Qed.

(** C1.  For every instance that is not nil, [RegisterService] returns with
    a nil error and the table it stores under the name holds exactly the
    eligible methods of the instance: a name is a key of the table if and
    only if an exported method of that name takes no or one parameter beyond
    the receiver and returns one or two values the last of which implements
    [error]; every entry is such a method, stored under its own name; and,
    the names of a method set being distinct, every such method has its
    entry. *)
Theorem RegisterService_stores_exactly_the_eligible_methods s name inst :
  ∃ reg svc,
    RegisterService s name (Some inst) = Ok reg ∧
    err reg = None ∧
    services (server reg) !! name = Some svc ∧
    (∀ k, is_Some (methods svc !! k) ↔
          ∃ m, m ∈ Reflect.Methods inst ∧ Reflect.Name m = k ∧ eligible m) ∧
    (∀ k info, methods svc !! k = Some info →
               Method info ∈ Reflect.Methods inst ∧
               Reflect.Name (Method info) = k ∧ eligible (Method info)) ∧
    (NoDup (Reflect.Name <$> Reflect.Methods inst) →
     ∀ m, m ∈ Reflect.Methods inst → eligible m →
          Method <$> methods svc !! Reflect.Name m = Some m).
Proof.
  destruct (RegisterService_returns s name (Some inst)) as (table & Htable & log & Heq).
  eexists _, _. split; [exact Heq|]. simpl. split; [done|].
  split; [apply lookup_insert_eq|]. simpl.
  assert (Hsome : ∀ k info, table !! k = Some info →
            ∃ m, m ∈ Reflect.Methods inst ∧ Reflect.Name m = k ∧ eligible m ∧
                 info = descriptor m).
  { intros k info Hk.
    destruct (registerMethods_lookup_Some _ _ _ _ _ Htable Hk) as [Hempty|Hm]; [|done].
    by rewrite lookup_empty in Hempty. }
  split; [|split].
  - intros k. split.
    + intros [info Hk]. destruct (Hsome _ _ Hk) as (m & ? & ? & ? & _). eauto.
    + intros Hm. eapply registerMethods_lookup_is_Some; eauto.
  - intros k info Hk. by destruct (Hsome _ _ Hk) as (m & ? & ? & ? & ->).
  - intros Hnd m Hin Hel.
    by rewrite (registerMethods_lookup_eligible _ _ _ _ Hnd Htable Hin Hel).
Qed.

(** C7.  [RegisterService] never fails: for every server, name and
    instance it returns, without a panic, a nil error; and for the nil
    instance the name is registered afterwards with an empty table. *)
Theorem RegisterService_never_fails s name :
  (∀ service, ∃ reg, RegisterService s name service = Ok reg ∧ err reg = None) ∧
  (∃ reg svc, RegisterService s name None = Ok reg ∧
              services (server reg) !! name = Some svc ∧
              service svc = None ∧ methods svc = ∅).
Proof.
  split.
  - intros service.
    destruct (RegisterService_returns s name service) as (table & _ & log & ->). eauto.
  - eexists _, _. split; [reflexivity|]. simpl. by rewrite lookup_insert_eq.
Qed.

(** C10.  [RegisterService] for a name changes the entry of that name
    only: the descriptor of every other name, with its instance and its
    table, is after the call what it was before. *)
Theorem RegisterService_keeps_other_names s name service other :
  other ≠ name →
  ∃ reg, RegisterService s name service = Ok reg ∧
         services (server reg) !! other = services s !! other.
Proof.
  intros Hne.
  destruct (RegisterService_returns s name service) as (table & _ & log & ->).
  eexists. split; [done|]. simpl. by rewrite lookup_insert_ne.
Qed.

(** C9.  Every descriptor a reachable server holds is consistent:
    [HasParams] is true exactly when [Type] is not nil, and [Type] is then
    the one argument type of the method; [HasResult] is true exactly when
    [ResultType] is not nil, and [ResultType] is then the first result type;
    and the key of the descriptor is the name of its method. *)
Theorem stored_descriptors_are_consistent s name svc key info :
  reachable s →
  services s !! name = Some svc →
  methods svc !! key = Some info →
  consistent key info.
Proof.
  intros Hs Hsvc Hkey.
  destruct (reachable_service_inv s Hs _ _ Hsvc _ _ Hkey)
    as (inst & _ & _ & <- & Hel & ->).
  by apply descriptor_consistent.
Qed.

(* ===================================================================== *)
(** ** Dispatch *)
(* ===================================================================== *)

Lemma trace_respond info results : trace (respond info results) = [].
Proof.
  unfold respond.
  destruct (HasResult info), results as [|r0 [|r1 rs]]; simpl; try done;
    try (destruct (Reflect.IsNil r0) as [[]|]; simpl; try done;
         destruct (assertError r0); done);
    try (destruct (Reflect.IsNil r1) as [[]|]; simpl; try done;
         destruct (assertError r1); done).
Qed.

(** A handler that reaches [Value.Call] has resolved the service and the
    method, calls the method of the instance that bears the name kept in
    the descriptor, and, when the call returns, ends as [respond] does. *)
Lemma handleRPC_called s e serviceName methodName nm args res :
  Called nm args res ∈ trace (handleRPC s e serviceName methodName) →
  ∃ svc info inst m,
    services s !! serviceName = Some svc ∧
    methods svc !! methodName = Some info ∧
    service svc = Some inst ∧
    Reflect.lookupMethod (Reflect.Methods inst) (Reflect.Name (Method info)) = Some m ∧
    nm = Reflect.Name m ∧ res = Reflect.Func_ m args ∧
    ∀ results, res = Ok results →
      next (handleRPC s e serviceName methodName) = next (respond info results).
Proof.
  unfold handleRPC.
  destruct (services s !! serviceName) as [svc|] eqn:Hsvc; [|simpl; by intros ?%elem_of_nil].
  destruct (methods svc !! methodName) as [info|] eqn:Hinfo; [|simpl; by intros ?%elem_of_nil].
  destruct (service svc) as [inst|] eqn:Hinst; [|simpl; by intros ?%elem_of_nil].
  unfold Reflect.MethodByName.
  destruct (Reflect.lookupMethod (Reflect.Methods inst) (Reflect.Name (Method info)))
    as [m|] eqn:Hm.
  - destruct (HasParams info).
    + destruct (Type_ info) as [argType|]; [|cbn; by intros ?%elem_of_nil].
      destruct (BindBody e argType) as [msg|c] eqn:Hbind.
      { cbn. unfold bindBody. rewrite Hbind. cbn.
        intros Hin%list_elem_of_singleton. done. }
      destruct (Reflect.Func_ m [{| Reflect.typ := argType; Reflect.content := c |}])
        as [results|msg] eqn:Hcall;
        cbn; unfold bindBody; rewrite Hbind; cbn; rewrite Hcall; cbn;
        rewrite ?trace_respond;
        (intros [?|Hin%list_elem_of_singleton]%elem_of_cons; [done|]); simplify_eq;
        exists svc, info, inst, m; repeat split; try done;
        intros ? ?; by simplify_eq.
    + destruct (Reflect.Func_ m []) as [results|msg] eqn:Hcall;
        cbn; rewrite Hcall; cbn; rewrite ?trace_respond;
        intros Hin%list_elem_of_singleton; simplify_eq;
        exists svc, info, inst, m; repeat split; try done;
        intros ? ?; by simplify_eq.
  - destruct (HasParams info).
    + destruct (Type_ info) as [argType|]; [|cbn; by intros ?%elem_of_nil].
      cbn. unfold bindBody. destruct (BindBody e argType) as [msg|c] eqn:Hbind; cbn;
        by intros ?%list_elem_of_singleton.
    + cbn. by intros ?%elem_of_nil.
Qed.

Lemma handleRPCGet_called s e serviceName entityName id nm args res :
  Called nm args res ∈ trace (handleRPCGet s e serviceName entityName id) →
  ∃ svc info inst m,
    services s !! serviceName = Some svc ∧
    methods svc !! ("Get" +:+ entityName) = Some info ∧
    service svc = Some inst ∧
    Reflect.lookupMethod (Reflect.Methods inst) (Reflect.Name (Method info)) = Some m ∧
    nm = Reflect.Name m ∧ res = Reflect.Func_ m args ∧
    ∀ results, res = Ok results →
      next (handleRPCGet s e serviceName entityName id) = next (respond info results).
Proof.
  unfold handleRPCGet.
  destruct (services s !! serviceName) as [svc|] eqn:Hsvc; [|simpl; by intros ?%elem_of_nil].
  destruct (methods svc !! ("Get" +:+ entityName)) as [info|] eqn:Hinfo;
    [|simpl; by intros ?%elem_of_nil].
  destruct (Type_ info) as [argType|]; [|cbn; by intros ?%elem_of_nil].
  destruct (service svc) as [inst|] eqn:Hinst;
    [|cbn; destruct (Reflect.TypeKind argType); cbn; by intros ?%elem_of_nil].
  unfold Reflect.MethodByName.
  destruct (Reflect.lookupMethod (Reflect.Methods inst) (Reflect.Name (Method info)))
    as [m|] eqn:Hm;
    [|cbn; destruct (Reflect.TypeKind argType); cbn; by intros ?%elem_of_nil].
  destruct (Reflect.Func_ m [Reflect.ValueOfString id]) as [results|msg] eqn:Hcall;
    (cbn; destruct (Reflect.TypeKind argType); cbn; try by intros ?%elem_of_nil);
    rewrite Hcall; cbn; rewrite ?trace_respond;
    intros Hin%list_elem_of_singleton; simplify_eq;
    exists svc, info, inst, m; repeat split; try done;
    intros ? ?; by simplify_eq.
Qed.

(** The end of a handler whose method has reported a failure, and of one
    whose failure-only method has reported none. *)
Lemma respond_failure m results failure :
  eligible m →
  Reflect.typ <$> results = Reflect.Out m →
  last results = Some failure →
  Reflect.IsNil failure = Ok false →
  respond (descriptor m) results =
  JSON http.StatusInternalServerError (BodyValue failure).
Proof.
  rewrite eligible_shape. intros (_ & _ & Hout) Hty Hlast Hnil.
  unfold respond, descriptor; simpl.
  destruct Hout as [(f & Hout & Hf)|(v & f & Hout & Hf)]; rewrite Hout in *;
    destruct results as [|x [|y [|? ?]]]; simplify_eq/=.
  all: cbn; rewrite Hnil; cbn; unfold assertError; rewrite Hf, Hnil; done.
Qed.

(** The end of a handler when [IsNil] panics on the failure. *)
Lemma respond_isnil_panics m results failure msg :
  eligible m →
  Reflect.typ <$> results = Reflect.Out m →
  last results = Some failure →
  Reflect.IsNil failure = Panic msg →
  respond (descriptor m) results = MkStep [] (inl (Panicked msg)).
Proof.
  rewrite eligible_shape. intros (_ & _ & Hout) Hty Hlast Hnil.
  unfold respond, descriptor; simpl.
  destruct Hout as [(f & Hout & Hf)|(v & f & Hout & Hf)]; rewrite Hout in *;
    destruct results as [|x [|y [|? ?]]]; simplify_eq/=.
  all: cbn; rewrite Hnil; done.
Qed.

(** [IsNil] by the kind of the value. *)
Lemma IsNil_cases v :
  Reflect.IsNil v =
  if has_nil (Reflect.TypeKind (Reflect.typ v))
  then Ok (bool_decide (Reflect.content v = None))
  else Panic (Reflect.ValueError "reflect.Value.IsNil" (Reflect.TypeKind (Reflect.typ v))).
Proof.
  unfold Reflect.IsNil, has_nil.
  destruct (Reflect.TypeKind (Reflect.typ v)); try done;
    by destruct (Reflect.content v).
Qed.

Lemma respond_failure_only_success m results failure :
  eligible m →
  Reflect.typ <$> results = Reflect.Out m →
  results = [failure] →
  Reflect.IsNil failure = Ok true →
  respond (descriptor m) results = JSON http.StatusOK (BodyMap [("status", "ok")]).
Proof.
  intros _ Hty -> Hnil. unfold respond, descriptor; simpl.
  destruct (Reflect.Out m) as [|? [|? ?]]; simplify_eq/=.
  cbn. rewrite Hnil. done.
Qed.

(** In a reachable server whose instances are well typed, the method that
    a handler calls is the method of the descriptor. *)
Lemma called_method_of_descriptor s name svc key info inst m :
  reachable s → well_typed_server s →
  services s !! name = Some svc →
  methods svc !! key = Some info →
  service svc = Some inst →
  Reflect.lookupMethod (Reflect.Methods inst) (Reflect.Name (Method info)) = Some m →
  m = Method info ∧ eligible m ∧ info = descriptor m ∧ well_typed_method m.
Proof.
  intros Hs Hwt Hsvc Hkey Hinst Hm.
  destruct (reachable_service_inv s Hs _ _ Hsvc _ _ Hkey)
    as (inst' & Hinst' & Hin & _ & Hel & Hinfo).
  rewrite Hinst in Hinst'. simplify_eq.
  destruct (Hwt _ _ _ Hsvc Hinst) as [Hnd Hall].
  rewrite (lookupMethod_NoDup _ _ Hnd Hin) in Hm. simplify_eq.
  split; [done|]. split; [done|]. split; [done|].
  rewrite Forall_forall in Hall. by apply Hall.
Qed.

Lemma well_typed_NewServer : well_typed_server NewServer.
Proof. intros name svc inst Hsvc. simpl in Hsvc. by rewrite lookup_empty in Hsvc. Qed.

Lemma well_typed_RegisterService s name service reg :
  well_typed_server s →
  match service with Some inst => well_typed_instance inst | None => True end →
  RegisterService s name service = Ok reg →
  well_typed_server (server reg).
Proof.
  intros Hs Hinst Hreg n svc inst Hsvc Hservice.
  destruct (RegisterService_returns s name service) as (table & _ & log & Heq).
  rewrite Heq in Hreg. simplify_eq. simpl in Hsvc.
  destruct (decide (name = n)) as [->|Hne].
  - rewrite lookup_insert_eq in Hsvc. simplify_eq. simpl in Hservice. by subst.
  - rewrite lookup_insert_ne in Hsvc by done. by eapply Hs.
Qed.

Section Dispatch.
Context `{CaseTables}.

(** C4.  Invoke-by-name: when the service name is not a key of the
    registry the handler answers NotFound with the service-not-found
    description, and when the service is there but the converted method
    name is not a key of its table the handler answers NotFound with the
    method-not-found description; either way the trace is empty: no body
    was bound and no method was called. *)
Theorem invoke_by_name_not_found s e :
  let serviceName := PathValue e "service" in
  let methodName := kebabToPascal (PathValue e "method") in
  (services s !! serviceName = None →
   Bind s POST_service_method e =
   MkStep [] (inl (Responded http.StatusNotFound
                     (BodyErrorf ("Service '" +:+ serviceName +:+ "' not found"))))) ∧
  (∀ svc, services s !! serviceName = Some svc →
          methods svc !! methodName = None →
   Bind s POST_service_method e =
   MkStep [] (inl (Responded http.StatusNotFound
                     (BodyErrorf ("Method '" +:+ methodName +:+
                                  "' not found in service '" +:+ serviceName +:+ "'"))))).
Proof.
  intros serviceName methodName. unfold Bind, handle, handleRPC.
  fold serviceName methodName. split.
  - intros ->. done.
  - intros svc -> ->. done.
Qed.

(** A handler that has called a method ends as [respond] does on the
    descriptor of that method and the values returned. *)
Lemma called_respond s r e nm args results :
  reachable s → well_typed_server s →
  Called nm args (Ok results) ∈ trace (Bind s r e) →
  ∃ m, eligible m ∧ Reflect.typ <$> results = Reflect.Out m ∧
       next (Bind s r e) = next (respond (descriptor m) results).
Proof.
  intros Hs Hwt Hcalled.
  assert (∃ name svc key info inst m,
             services s !! name = Some svc ∧ methods svc !! key = Some info ∧
             service svc = Some inst ∧
             Reflect.lookupMethod (Reflect.Methods inst) (Reflect.Name (Method info)) = Some m ∧
             Ok results = Reflect.Func_ m args ∧
             next (Bind s r e) = next (respond info results))
    as (name & svc & key & info & inst & m & Hsvc & Hkey & Hinst & Hm & Hres & Hnext).
  { destruct r; simpl in *; unfold handle, handleGet in *.
    - apply handleRPC_called in Hcalled
        as (svc & info & inst & m & ? & ? & ? & ? & ? & ? & Hnext).
      eexists _, _, _, _, _, _. repeat split; eauto.
    - apply handleRPCGet_called in Hcalled
        as (svc & info & inst & m & ? & ? & ? & ? & ? & ? & Hnext).
      eexists _, _, _, _, _, _. repeat split; eauto. }
  destruct (called_method_of_descriptor _ _ _ _ _ _ _ Hs Hwt Hsvc Hkey Hinst Hm)
    as (-> & Hel & Hd & Hty).
  exists (Method info). split; [done|]. split; [by apply (Hty args)|].
  by rewrite <- Hd.
Qed.

(** C5, on the code.  Whenever a handler of a reachable, well-typed server
    has called a method and the last of the values returned, the failure,
    is not empty, the handler asks [IsNil] of it.  For a failure of a kind
    that has nil the handler answers InternalServerError with that failure
    itself as the body, whether or not a result value came with it.  For a
    failure of a kind without nil, such as a struct that implements
    [error], which [RegisterService] takes for a failure all the same,
    [IsNil] panics: the handler ends in that panic and answers nothing. *)
Theorem non_empty_failure_is_forwarded_or_IsNil_panics s r e nm args results failure :
  reachable s → well_typed_server s →
  Called nm args (Ok results) ∈ trace (Bind s r e) →
  last results = Some failure →
  Reflect.content failure ≠ None →
  next (Bind s r e) =
  inl (if has_nil (Reflect.TypeKind (Reflect.typ failure))
       then Responded http.StatusInternalServerError (BodyValue failure)
       else Panicked (Reflect.ValueError "reflect.Value.IsNil"
                                         (Reflect.TypeKind (Reflect.typ failure)))).
Proof.
  intros Hs Hwt Hcalled Hlast Hcontent.
  destruct (called_respond s r e nm args results Hs Hwt Hcalled) as (m & Hel & Hty & ->).
  pose proof (IsNil_cases failure) as Hnil.
  destruct (has_nil (Reflect.TypeKind (Reflect.typ failure))).
  - rewrite bool_decide_eq_false_2 in Hnil by done.
    by rewrite (respond_failure _ _ _ Hel Hty Hlast Hnil).
  - by rewrite (respond_isnil_panics _ _ _ _ Hel Hty Hlast Hnil).
Qed.

(** C8.  Whenever a handler of a reachable, well-typed server has called
    a method that returned one value only, a failure, and that failure is
    nil, the handler answers OK with the marker [{"status": "ok"}], a body
    that is not empty; this holds on both routes. *)
Theorem failure_only_success_has_marker_body s r e nm args failure :
  reachable s → well_typed_server s →
  Called nm args (Ok [failure]) ∈ trace (Bind s r e) →
  Reflect.IsNil failure = Ok true →
  ∃ marker,
    next (Bind s r e) = inl (Responded http.StatusOK (BodyMap marker)) ∧
    marker = [("status", "ok")] ∧ marker ≠ [].
Proof.
  intros Hs Hwt Hcalled Hnil. exists [("status", "ok")]. split; [|done].
  assert (∃ name svc key info inst m,
             services s !! name = Some svc ∧ methods svc !! key = Some info ∧
             service svc = Some inst ∧
             Reflect.lookupMethod (Reflect.Methods inst) (Reflect.Name (Method info)) = Some m ∧
             Ok [failure] = Reflect.Func_ m args ∧
             next (Bind s r e) = next (respond info [failure]))
    as (name & svc & key & info & inst & m & Hsvc & Hkey & Hinst & Hm & Hres & ->).
  { destruct r; simpl in *; unfold handle, handleGet in *.
    - apply handleRPC_called in Hcalled
        as (svc & info & inst & m & ? & ? & ? & ? & ? & ? & Hnext).
      eexists _, _, _, _, _, _. repeat split; eauto.
    - apply handleRPCGet_called in Hcalled
        as (svc & info & inst & m & ? & ? & ? & ? & ? & ? & Hnext).
      eexists _, _, _, _, _, _. repeat split; eauto. }
  destruct (called_method_of_descriptor _ _ _ _ _ _ _ Hs Hwt Hsvc Hkey Hinst Hm)
    as (-> & Hel & -> & Hty).
  by rewrite (respond_failure_only_success _ _ _ Hel (Hty _ _ (eq_sym Hres)) eq_refl Hnil).
Qed.

(** Fetch-by-id of a method whose one parameter is not of kind [String]:
    the handler answers BadRequest with the signature-mismatch description
    and calls nothing. *)
Lemma fetch_by_id_signature_mismatch s e svc info t :
  services s !! PathValue e "service" = Some svc →
  methods svc !! ("Get" +:+ kebabToPascal (PathValue e "entity")) = Some info →
  Type_ info = Some t →
  Reflect.TypeKind t ≠ Reflect.String →
  Bind s GET_service_entity_id e =
  MkStep [] (inl (Responded http.StatusBadRequest
                    (BodyErrorf ("Method '" +:+ ("Get" +:+ kebabToPascal (PathValue e "entity"))
                                 +:+ "' does not accept a string parameter")))).
Proof.
  intros Hsvc Hinfo Ht Hkind. unfold Bind, handleGet, handleRPCGet.
  rewrite Hsvc, Hinfo, Ht. cbn. by destruct (Reflect.TypeKind t).
Qed.

(** C2, on the code.  Fetch-by-id of a registered method [Get<Entity>] that
    takes no parameter: the descriptor holds a nil [Type], the handler calls
    [Kind] on it and panics; it writes no response and calls no method. *)
Theorem fetch_by_id_of_parameterless_method_panics s e svc info receiver :
  reachable s →
  services s !! PathValue e "service" = Some svc →
  methods svc !! ("Get" +:+ kebabToPascal (PathValue e "entity")) = Some info →
  Reflect.In (Method info) = [receiver] →
  Bind s GET_service_entity_id e =
  MkStep [] (inl (Panicked
    "runtime error: invalid memory address or nil pointer dereference")).
Proof.
  intros Hs Hsvc Hinfo Hin. unfold Bind, handleGet, handleRPCGet.
  rewrite Hsvc, Hinfo.
  destruct (reachable_service_inv s Hs _ _ Hsvc _ _ Hinfo) as (_ & _ & _ & _ & _ & Hd).
  rewrite Hd. unfold descriptor at 1. simpl. by rewrite Hin.
Qed.

(** C6.  Registering under a name that is registered already replaces the
    descriptor as a whole: registering [a] and then [b] under [name] is
    registering [b]; the descriptor under [name] is then the one any server
    gets for [b]; and a name that [b] does not offer, whatever [a] offered,
    is not a key of the table, so that both routes answer NotFound for it. *)
Theorem reregistration_replaces_the_descriptor s name a b :
  (r1 ← RegisterService s name a; RegisterService (server r1) name b)
  = RegisterService s name b ∧
  ∃ r1 r2 svc,
    RegisterService s name a = Ok r1 ∧
    RegisterService (server r1) name b = Ok r2 ∧
    services (server r2) !! name = Some svc ∧
    service svc = b ∧
    (∀ s', ∃ r', RegisterService s' name b = Ok r' ∧
                 services (server r') !! name = Some svc) ∧
    (∀ k, ¬ offered b k →
       methods svc !! k = None ∧
       ∀ e, handleRPC (server r2) e name k =
            MkStep [] (inl (Responded http.StatusNotFound
                              (BodyErrorf ("Method '" +:+ k +:+ "' not found in service '"
                                           +:+ name +:+ "'"))))) ∧
    (∀ entity, ¬ offered b ("Get" +:+ entity) →
       ∀ e id, handleRPCGet (server r2) e name entity id =
               MkStep [] (inl (Responded http.StatusNotFound
                                 (BodyErrorf ("Method '" +:+ ("Get" +:+ entity)
                                              +:+ "' not found in service '"
                                              +:+ name +:+ "'"))))).
Proof.
  destruct (RegisterService_returns s name a) as (ta & Hta & la & Ha).
  destruct (RegisterService_returns s name b) as (tb & Htb & lb & Hb).
  assert (Hnone : ∀ k, ¬ offered b k → tb !! k = None).
  { intros k Hk. destruct (tb !! k) as [info|] eqn:Hinfo; [|done]. exfalso. apply Hk.
    destruct b as [inst|]; [|subst tb; by rewrite lookup_empty in Hinfo].
    destruct (registerMethods_lookup_Some _ _ _ _ _ Htb Hinfo)
      as [Hempty|(m & ? & ? & ? & _)]; [by rewrite lookup_empty in Hempty|].
    exists inst, m. done. }
  assert (Hany : ∀ s', ∃ l, RegisterService s' name b =
            Ok {| server := {| services :=
                    <[name := {| service := b; methods := tb; serviceName := name |}]>
                      (services s') |}; logged := l; err := None |}).
  { intros s'. unfold RegisterService. destruct b as [inst|].
    - rewrite Htb. simpl. eauto.
    - subst tb. eauto. }
  assert (Hlog : ∀ s' r' r, RegisterService s' name b = Ok r' →
                            RegisterService s name b = Ok r → logged r' = logged r).
  { intros s' r' r. unfold RegisterService. destruct b as [inst|].
    - destruct (registerMethods ∅ (Reflect.Methods inst)); simpl; intros; by simplify_eq.
    - intros; by simplify_eq. }
  split.
  - rewrite Ha. cbn.
    destruct (Hany {| services := <[name := {| service := a; methods := ta;
                                              serviceName := name |}]> (services s) |})
      as [l1 H1]. destruct (Hany s) as [l2 H2].
    pose proof (Hlog _ _ _ H1 H2) as Hl. simpl in Hl.
    rewrite H1, H2. simpl. rewrite Hl. by rewrite insert_insert_eq.
  - destruct (Hany {| services := <[name := {| service := a; methods := ta;
                                              serviceName := name |}]> (services s) |})
      as [l1 H1].
    eexists _, _, _. split; [exact Ha|]. split; [exact H1|]. simpl.
    split; [apply lookup_insert_eq|]. split; [done|]. split; [|split].
    + intros s'. destruct (Hany s') as [l' ->]. eexists. split; [done|].
      simpl. apply lookup_insert_eq.
    + intros k Hk. simpl. split; [by apply Hnone|]. intros e.
      unfold handleRPC. simpl. rewrite lookup_insert_eq. simpl. by rewrite (Hnone _ Hk).
    + intros entity Hk e id.
      unfold handleRPCGet. simpl. rewrite lookup_insert_eq. simpl. by rewrite (Hnone _ Hk).
Qed.

End Dispatch.

(* ===================================================================== *)
(** ** The conversion of slugs *)
(* ===================================================================== *)

#[local] Arguments Ascii.eqb : simpl never.

Lemma append_nil_l s : "" +:+ s = s.
Proof. reflexivity. Qed.

Lemma append_cons c s t : String c s +:+ t = String c (s +:+ t).
Proof. reflexivity. Qed.

Lemma append_nil_r s : s +:+ "" = s.
Proof. induction s as [|c s IH]; [done|]. by rewrite append_cons, IH. Qed.

Lemma append_assoc s t u : (s +:+ t) +:+ u = s +:+ (t +:+ u).
Proof. induction s as [|c s IH]; [done|]. by rewrite !append_cons, IH. Qed.

Lemma tokens_head s : ∀ cur, ∃ h t, tokens cur s = (cur +:+ h) :: t.
Proof.
  induction s as [|c s IH]; intros cur; simpl.
  - exists EmptyString, []. by rewrite append_nil_r.
  - destruct (Ascii.eqb c "-").
    + exists EmptyString, (tokens EmptyString s). by rewrite append_nil_r.
    + destruct (IH (cur +:+ String c EmptyString)) as (h & t & ->).
      exists (String c h), t. by rewrite append_assoc.
Qed.

(** [Index] finds the first hyphen, where [tokens] ends its first token. *)
Lemma Index_hyphen s : ∀ cur,
  match Strings.Index s "-" with
  | None => tokens cur s = [cur +:+ s]
  | Some m => (m < String.length s)%nat ∧
              tokens cur s = (cur +:+ take_bytes m s) :: tokens "" (drop_bytes (m + 1) s)
  end.
Proof.
  induction s as [|c s IH]; intros cur; simpl; [by rewrite append_nil_r|].
  rewrite Ascii.eqb_sym. destruct (Ascii.eqb c "-") eqn:Hc; simpl.
  - assert (Strings.HasPrefix s "" = true) as -> by (by destruct s).
    simpl. split; [lia|]. by rewrite append_nil_r.
  - specialize (IH (cur +:+ String c EmptyString)).
    destruct (Strings.Index s "-") as [m|]; simpl.
    + destruct IH as [Hm ->]. split; [lia|]. by rewrite append_assoc.
    + rewrite IH. by rewrite append_assoc.
Qed.

Lemma length_drop_bytes n : ∀ s, String.length (drop_bytes n s) = (String.length s - n)%nat.
Proof. induction n as [|n IH]; intros [|c s]; simpl; auto with lia. Qed.

(** The loop of [genSplit] has fuel enough: it cuts the string at every
    hyphen. *)
Lemma genSplit_tokens n : ∀ s fuel,
  (String.length s ≤ n)%nat → (String.length s ≤ fuel)%nat →
  Strings.genSplit fuel s "-" = tokens "" s.
Proof.
  induction n as [|n IH]; intros s fuel Hn Hfuel.
  - destruct s; [|simpl in Hn; lia]. by destruct fuel.
  - pose proof (Index_hyphen s "") as Hi. destruct fuel as [|fuel].
    + destruct s; [done|simpl in Hfuel; lia].
    + simpl. destruct (Strings.Index s "-") as [m|]; [|by rewrite Hi].
      destruct Hi as [Hm ->]. simpl. f_equal.
      apply IH; rewrite length_drop_bytes; lia.
Qed.

Lemma Split_hyphen s : Strings.Split s "-" = tokens "" s.
Proof. unfold Strings.Split. by apply (genSplit_tokens (String.length s)). Qed.

Lemma Join_concat sep l : Strings.Join l sep = String.concat sep l.
Proof. induction l as [|x [|y l] IH]; simpl in *; [done..|]. by rewrite IH. Qed.

Lemma upper_char_byte c : byte_of (Strings.upperByte (byte_val c)) = upper_char c.
Proof. destruct c as [[] [] [] [] [] [] [] []]; reflexivity. Qed.

Lemma lower_char_byte c : byte_of (Strings.lowerByte (byte_val c)) = lower_char c.
Proof. destruct c as [[] [] [] [] [] [] [] []]; reflexivity. Qed.

Lemma lowercase_bytes s :
  string_of_bytes (List.map Strings.lowerByte (bytes_of s)) = lowercase s.
Proof. induction s as [|c s IH]; simpl; [done|]. by rewrite IH, lower_char_byte. Qed.

Lemma isASCII_ascii_string s : ascii_string s → Strings.isASCII s = true.
Proof.
  unfold ascii_string, Strings.isASCII. intros Hs.
  apply forallb_forall. intros b Hb. rewrite List.Forall_forall in Hs.
  apply Z.ltb_lt. by apply Hs.
Qed.

Lemma tokens_ascii s : ∀ cur,
  ascii_string cur → ascii_string s → Forall ascii_string (tokens cur s).
Proof.
  unfold ascii_string.
  induction s as [|c s IH]; intros cur Hcur Hs; simpl in *; [by constructor|].
  apply Forall_cons in Hs as [Hc Hs].
  destruct (Ascii.eqb c "-").
  - constructor; [done|]. apply IH; [constructor|done].
  - apply IH; [|done]. clear -Hcur Hc.
    induction cur as [|d cur IH]; simpl in *; [by repeat constructor|].
    apply Forall_cons in Hcur as [Hd Hcur]. constructor; auto.
Qed.

Section Conversion.
Context `{CaseTables}.

(** On a token of ASCII characters the body of the loop capitalizes the
    first character and lowercases the rest. *)
Lemma pascalPart_ascii token : ascii_string token → pascalPart token = capitalize token.
Proof.
  destruct token as [|c rest]; [done|]. unfold ascii_string. simpl.
  intros [Hc Hrest]%Forall_cons. unfold pascalPart. simpl.
  unfold Strings.ToUpper, Strings.ToLower.
  rewrite (isASCII_ascii_string rest Hrest).
  unfold Strings.isASCII. simpl.
  replace (byte_val c <? utf8.RuneSelf) with true by (symmetry; by apply Z.ltb_lt).
  simpl. by rewrite upper_char_byte, lowercase_bytes.
Qed.

(** On a slug of ASCII characters [kebabToPascal] is the conversion of the
    specification. *)
Lemma kebabToPascal_ascii slug :
  ascii_string slug → kebabToPascal slug = pascal_of_slug slug.
Proof.
  intros Hs. unfold kebabToPascal, pascal_of_slug.
  rewrite Split_hyphen, Join_concat. f_equal.
  assert (Htok : Forall ascii_string (tokens "" slug)) by (apply tokens_ascii; [constructor|done]).
  induction Htok as [|t l Ht _ IH]; simpl; [done|].
  by rewrite IH, (pascalPart_ascii t Ht).
Qed.

(** The conversions the specification lists. *)
Lemma kebabToPascal_examples :
  kebabToPascal "" = "" ∧
  kebabToPascal "single" = "Single" ∧
  kebabToPascal "get-user-profile" = "GetUserProfile" ∧
  kebabToPascal "UPPER-CASE" = "UpperCase" ∧
  kebabToPascal "mixed-Case" = "MixedCase".
Proof. repeat split; reflexivity. Qed.

Lemma range_of_high_byte b :
  128 ≤ byte_val b → utf8.range (String b EmptyString) = [utf8.RuneError].
Proof.
  intros Hb. destruct b as [[] [] [] [] [] [] [] []]; try reflexivity;
    vm_compute in Hb; by destruct Hb.
Qed.

Lemma ToUpper_of_high_byte b :
  128 ≤ byte_val b →
  Strings.ToUpper (String b EmptyString) = string_of_bytes [239; 191; 189].
Proof.
  intros Hb. unfold Strings.ToUpper, Strings.isASCII. simpl.
  replace (byte_val b <? utf8.RuneSelf) with false
    by (symmetry; apply Z.ltb_ge; unfold utf8.RuneSelf; lia).
  simpl. unfold Strings.Map. rewrite (range_of_high_byte b Hb). simpl.
  by rewrite unicode_ToUpper_RuneError.
Qed.

Lemma ToLower_of_high_byte b :
  128 ≤ byte_val b →
  Strings.ToLower (String b EmptyString) = string_of_bytes [239; 191; 189].
Proof.
  intros Hb. unfold Strings.ToLower, Strings.isASCII. simpl.
  replace (byte_val b <? utf8.RuneSelf) with false
    by (symmetry; apply Z.ltb_ge; unfold utf8.RuneSelf; lia).
  simpl. unfold Strings.Map. rewrite (range_of_high_byte b Hb). simpl.
  by rewrite unicode_ToLower_RuneError.
Qed.

(** The slug "é", the bytes C3 A9 of U+00E9, becomes U+FFFD U+FFFD. *)
Lemma kebabToPascal_e_acute :
  kebabToPascal (string_of_bytes [195; 169])
  = string_of_bytes [239; 191; 189; 239; 191; 189].
Proof.
  unfold kebabToPascal. rewrite Split_hyphen.
  change (tokens "" (string_of_bytes [195; 169])) with [string_of_bytes [195; 169]].
  simpl. unfold pascalPart. simpl.
  rewrite (ToUpper_of_high_byte (byte_of 195)) by (vm_compute; discriminate).
  rewrite (ToLower_of_high_byte (byte_of 169)) by (vm_compute; discriminate).
  reflexivity.
Qed.

(** C3, on the code.  A slug that begins with a byte outside ASCII, as
    every character beyond U+007F does in UTF-8, is not capitalized: the
    byte alone is given to [ToUpper], which replaces it by the three bytes
    of U+FFFD. *)
Theorem kebabToPascal_replaces_a_leading_non_ASCII_byte b rest :
  128 ≤ byte_val b →
  ∃ tail, kebabToPascal (String b rest) = string_of_bytes [239; 191; 189] +:+ tail.
Proof.
  intros Hb. unfold kebabToPascal. rewrite Split_hyphen. simpl.
  assert (Ascii.eqb b "-" = false) as ->.
  { destruct (Ascii.eqb_spec b "-") as [->|]; [|done]. vm_compute in Hb. by destruct Hb. }
  rewrite append_nil_l.
  destruct (tokens_head rest (String b EmptyString)) as (h & t & ->).
  rewrite append_cons, append_nil_l. simpl.
  assert (pascalPart (String b h) =
          string_of_bytes [239; 191; 189] +:+ Strings.ToLower h) as ->.
  { unfold pascalPart. simpl. by rewrite (ToUpper_of_high_byte b Hb). }
  destruct (map pascalPart t) as [|x l].
  - eexists. reflexivity.
  - eexists. rewrite append_assoc. reflexivity.
Qed.

End Conversion.

(* ===================================================================== *)
(** ** The properties on the services of the tests and of the example *)
(* ===================================================================== *)

Lemma reachable_registered s name service :
  reachable s → reachable (Fixture.registered s name service).
Proof.
  intros Hs. unfold Fixture.registered.
  destruct (RegisterService s name service) as [reg|msg] eqn:Hreg; [|done].
  by eapply reachable_register.
Qed.

Lemma well_typed_registered s name inst :
  well_typed_server s → well_typed_instance inst →
  well_typed_server (Fixture.registered s name (Some inst)).
Proof.
  intros Hs Hinst. unfold Fixture.registered.
  destruct (RegisterService s name (Some inst)) as [reg|msg] eqn:Hreg; [|done].
  by eapply (well_typed_RegisterService s name (Some inst)).
Qed.

Ltac well_typed_fixture :=
  split; [apply (bool_decide_unpack _); vm_compute; exact I|];
  repeat (apply Forall_cons; split); try apply List.Forall_nil;
  intros [|? [|? [|? ?]]] results Hcall; simpl in Hcall; try discriminate Hcall;
  injection Hcall as <-; reflexivity.

Lemma TestService_well_typed : well_typed_instance Fixture.TestService.
Proof. well_typed_fixture. Qed.

Lemma ProductsService_well_typed : well_typed_instance Fixture.ProductsService.
Proof. well_typed_fixture. Qed.

Lemma SessionsService_well_typed : well_typed_instance Fixture.SessionsService.
Proof. well_typed_fixture. Qed.

Lemma testServer_reachable : reachable Fixture.testServer.
Proof. apply reachable_registered, reachable_new. Qed.

Lemma productsServer_reachable : reachable Fixture.productsServer.
Proof. apply reachable_registered, reachable_new. Qed.

Lemma sessionsServer_reachable : reachable Fixture.sessionsServer.
Proof. apply reachable_registered, reachable_new. Qed.

Lemma testServer_well_typed : well_typed_server Fixture.testServer.
Proof.
  apply well_typed_registered; [apply well_typed_NewServer|apply TestService_well_typed].
Qed.

Lemma productsServer_well_typed : well_typed_server Fixture.productsServer.
Proof.
  apply well_typed_registered; [apply well_typed_NewServer|apply ProductsService_well_typed].
Qed.

Lemma sessionsServer_well_typed : well_typed_server Fixture.sessionsServer.
Proof.
  apply well_typed_registered; [apply well_typed_NewServer|apply SessionsService_well_typed].
Qed.

Lemma OrdersService_well_typed : well_typed_instance Orders.OrdersService.
Proof. well_typed_fixture. Qed.

Lemma ordersServer_reachable : reachable Orders.ordersServer.
Proof. apply reachable_registered, reachable_new. Qed.

Lemma ordersServer_well_typed : well_typed_server Orders.ordersServer.
Proof.
  apply well_typed_registered; [apply well_typed_NewServer|apply OrdersService_well_typed].
Qed.

Lemma ItemsService_well_typed : well_typed_instance Items.ItemsService.
Proof.
  split; [apply (bool_decide_unpack _); vm_compute; exact I|].
  apply Forall_cons; split; [|apply List.Forall_nil].
  intros [|id [|? ?]] results Hcall; simpl in Hcall; try discriminate Hcall.
  destruct (String.eqb _ _); [|discriminate Hcall].
  injection Hcall as <-. reflexivity.
Qed.

Lemma itemsServer_reachable : reachable Items.itemsServer.
Proof. apply reachable_registered, reachable_new. Qed.

Lemma itemsServer_well_typed : well_typed_server Items.itemsServer.
Proof.
  apply well_typed_registered; [apply well_typed_NewServer|apply ItemsService_well_typed].
Qed.

(** The table of [*TestService], as [TestServiceMethodsCount] expects it:
    the five methods of the right shape are keys, the two others are not. *)
Example TestService_table :
  (fun k => bool_decide (is_Some (services Fixture.testServer !! "test"
                                    ≫= fun svc => methods svc !! k)))
    <$> ["CreateUser"; "GetStats"; "GetUser"; "InvalidMethod1"; "InvalidMethod2";
         "RefreshCache"; "UpdateUser"]
  = [true; true; true; false; false; true; true].
Proof. vm_compute. reflexivity. Qed.

(** C1 on [*TestService]. *)
Lemma RegisterService_stores_exactly_the_eligible_methods_witness :
  ∃ reg svc,
    RegisterService NewServer "test" (Some Fixture.TestService) = Ok reg ∧
    err reg = None ∧
    services (server reg) !! "test" = Some svc ∧
    (∀ k, is_Some (methods svc !! k) ↔
          ∃ m, m ∈ Reflect.Methods Fixture.TestService ∧ Reflect.Name m = k ∧ eligible m) ∧
    (∀ k info, methods svc !! k = Some info →
               Method info ∈ Reflect.Methods Fixture.TestService ∧
               Reflect.Name (Method info) = k ∧ eligible (Method info)) ∧
    (NoDup (Reflect.Name <$> Reflect.Methods Fixture.TestService) →
     ∀ m, m ∈ Reflect.Methods Fixture.TestService → eligible m →
          Method <$> methods svc !! Reflect.Name m = Some m).
Proof.
  exact (RegisterService_stores_exactly_the_eligible_methods
           NewServer "test" Fixture.TestService).
Defined.

(** C2 on [GET /test/stats/42]: [GetStats] takes no parameter. *)
Lemma fetch_by_id_of_parameterless_method_panics_witness :
  Bind Fixture.testServer GET_service_entity_id
       (Fixture.request [("service", "test"); ("entity", "stats"); ("id", "42")] "")
  = MkStep [] (inl (Panicked
      "runtime error: invalid memory address or nil pointer dereference")).
Proof.
  eapply (fetch_by_id_of_parameterless_method_panics Fixture.testServer _ _
            (descriptor Fixture.GetStats) Fixture.TestServicePtr).
  - exact testServer_reachable.
  - vm_compute. reflexivity.
  - vm_compute. reflexivity.
  - reflexivity.
Defined.

(** C3 on the slug "é", the bytes C3 A9. *)
Lemma kebabToPascal_replaces_a_leading_non_ASCII_byte_witness :
  128 ≤ byte_val (byte_of 195) ∧
  ∃ tail, kebabToPascal (string_of_bytes [195; 169])
          = string_of_bytes [239; 191; 189] +:+ tail.
Proof.
  split.
  - vm_compute. discriminate.
  - apply (kebabToPascal_replaces_a_leading_non_ASCII_byte
             (byte_of 195) (string_of_bytes [169])).
    vm_compute. discriminate.
Defined.

(** C4 on [POST /nosuch/create-user] and [POST /test/unknown-method]. *)
Lemma invoke_by_name_not_found_witness :
  Bind Fixture.testServer POST_service_method
       (Fixture.request [("service", "nosuch"); ("method", "create-user")] "")
  = MkStep [] (inl (Responded 404 (BodyErrorf "Service 'nosuch' not found"))) ∧
  Bind Fixture.testServer POST_service_method
       (Fixture.request [("service", "test"); ("method", "unknown-method")] "")
  = MkStep [] (inl (Responded 404
                      (BodyErrorf "Method 'UnknownMethod' not found in service 'test'"))).
Proof.
  split.
  - apply (proj1 (invoke_by_name_not_found Fixture.testServer
             (Fixture.request [("service", "nosuch"); ("method", "create-user")] ""))).
    vm_compute. reflexivity.
  - eapply (proj2 (invoke_by_name_not_found Fixture.testServer
             (Fixture.request [("service", "test"); ("method", "unknown-method")] ""))).
    + vm_compute. reflexivity.
    + vm_compute. reflexivity.
Defined.

(** C5 on [POST /orders/cancel], whose method returns the struct
    [main.Refusal] for its failure: the handler panics.  On the example
    service over an empty store, whose failures are of type [error], the
    failure is forwarded: [POST /products/delete], a failure-only method,
    and [GET /products/product/p1], a method with a result. *)
Lemma non_empty_failure_is_forwarded_or_IsNil_panics_witness :
  next (Bind Orders.ordersServer POST_service_method
          (Fixture.request [("service", "orders"); ("method", "cancel")] "o7"))
  = inl (Panicked "reflect: call of reflect.Value.IsNil on struct Value") ∧
  next (Bind Fixture.productsServer POST_service_method
          (Fixture.request [("service", "products"); ("method", "delete")] "p1"))
  = inl (Responded 500 (BodyValue Fixture.noRows)) ∧
  next (Bind Fixture.productsServer GET_service_entity_id
          (Fixture.request [("service", "products"); ("entity", "product"); ("id", "p1")] ""))
  = inl (Responded 500 (BodyValue Fixture.noRows)).
Proof.
  split; [|split].
  - eapply (non_empty_failure_is_forwarded_or_IsNil_panics
              Orders.ordersServer POST_service_method _
              "Cancel" _ [Orders.refused] Orders.refused).
    + exact ordersServer_reachable.
    + exact ordersServer_well_typed.
    + vm_compute. apply list_elem_of_further, list_elem_of_here.
    + reflexivity.
    + discriminate.
  - eapply (non_empty_failure_is_forwarded_or_IsNil_panics
              Fixture.productsServer POST_service_method _
              "Delete" _ [Fixture.noRows] Fixture.noRows).
    + exact productsServer_reachable.
    + exact productsServer_well_typed.
    + vm_compute. apply list_elem_of_further, list_elem_of_here.
    + reflexivity.
    + discriminate.
  - eapply (non_empty_failure_is_forwarded_or_IsNil_panics
              Fixture.productsServer GET_service_entity_id _
              "GetProduct" _ [Fixture.val Fixture.Product ""; Fixture.noRows] Fixture.noRows).
    + exact productsServer_reachable.
    + exact productsServer_well_typed.
    + vm_compute. apply list_elem_of_here.
    + reflexivity.
    + discriminate.
Defined.

(** C8 on [POST /test/refresh-cache] and [GET /sessions/touched/s1]. *)
Lemma failure_only_success_has_marker_body_witness :
  (∃ marker,
     next (Bind Fixture.testServer POST_service_method
             (Fixture.request [("service", "test"); ("method", "refresh-cache")] ""))
     = inl (Responded 200 (BodyMap marker)) ∧
     marker = [("status", "ok")] ∧ marker ≠ []) ∧
  (∃ marker,
     next (Bind Fixture.sessionsServer GET_service_entity_id
             (Fixture.request [("service", "sessions"); ("entity", "touched"); ("id", "s1")] ""))
     = inl (Responded 200 (BodyMap marker)) ∧
     marker = [("status", "ok")] ∧ marker ≠ []).
Proof.
  split.
  - eapply (failure_only_success_has_marker_body Fixture.testServer POST_service_method _
              "RefreshCache" _ Fixture.nilError).
    + exact testServer_reachable.
    + exact testServer_well_typed.
    + vm_compute. apply list_elem_of_here.
    + reflexivity.
  - eapply (failure_only_success_has_marker_body Fixture.sessionsServer GET_service_entity_id _
              "GetTouched" _ Fixture.nilError).
    + exact sessionsServer_reachable.
    + exact sessionsServer_well_typed.
    + vm_compute. apply list_elem_of_here.
    + reflexivity.
Defined.

(** C9 on the descriptor of [GetUser]. *)
Lemma stored_descriptors_are_consistent_witness :
  consistent "GetUser" (descriptor Fixture.GetUser).
Proof.
  eapply (stored_descriptors_are_consistent Fixture.testServer "test").
  - exact testServer_reachable.
  - vm_compute. reflexivity.
  - vm_compute. reflexivity.
Defined.

(** C10: registering the example service leaves ["test"] as it was. *)
Lemma RegisterService_keeps_other_names_witness :
  ∃ reg, RegisterService Fixture.testServer "products" (Some Fixture.ProductsService) = Ok reg ∧
         services (server reg) !! "test" = services Fixture.testServer !! "test".
Proof.
  apply (RegisterService_keeps_other_names Fixture.testServer "products"
           (Some Fixture.ProductsService) "test").
  discriminate.
Defined.

(** C6: [*ProductsService] registered over [*TestService] under ["test"]. *)
Lemma reregistration_replaces_the_descriptor_witness :
  ¬ offered (Some Fixture.ProductsService) "CreateUser" ∧
  ∃ r1 r2,
    RegisterService NewServer "test" (Some Fixture.TestService) = Ok r1 ∧
    RegisterService (server r1) "test" (Some Fixture.ProductsService) = Ok r2 ∧
    ∀ e, handleRPC (server r2) e "test" "CreateUser"
         = MkStep [] (inl (Responded 404
             (BodyErrorf "Method 'CreateUser' not found in service 'test'"))).
Proof.
  assert (Hno : ¬ offered (Some Fixture.ProductsService) "CreateUser").
  { intros (inst & m & Hinst & Hin & Hname & _). injection Hinst as <-.
    simpl in Hin. repeat (apply elem_of_cons in Hin as [->|Hin]; [discriminate Hname|]).
    by apply elem_of_nil in Hin. }
  split; [exact Hno|].
  destruct (reregistration_replaces_the_descriptor NewServer "test"
              (Some Fixture.TestService) (Some Fixture.ProductsService))
    as (_ & r1 & r2 & svc & H1 & H2 & _ & _ & _ & Hpost & _).
  exists r1, r2. split; [exact H1|]. split; [exact H2|].
  exact (proj2 (Hpost "CreateUser" Hno)).
Defined.

(* ===================================================================== *)
(** ** More on dispatch *)
(* ===================================================================== *)

(** The end of a handler whose method has returned a result and no
    failure. *)
Lemma respond_result m results v failure :
  eligible m →
  Reflect.typ <$> results = Reflect.Out m →
  results = [v; failure] →
  Reflect.IsNil failure = Ok true →
  respond (descriptor m) results = JSON http.StatusOK (BodyValue v).
Proof.
  intros _ Hty -> Hnil. unfold respond, descriptor; simpl.
  destruct (Reflect.Out m) as [|? [|? [|? ?]]]; simplify_eq/=.
  cbn. rewrite Hnil. done.
Qed.

(** [respond] panics only where [IsNil] does. *)
Lemma respond_panics m results msg :
  eligible m →
  Reflect.typ <$> results = Reflect.Out m →
  next (respond (descriptor m) results) = inl (Panicked msg) →
  ∃ failure, last results = Some failure ∧ Reflect.IsNil failure = Panic msg.
Proof.
  rewrite eligible_shape. intros (_ & _ & Hout) Hty.
  unfold respond, descriptor; simpl.
  destruct Hout as [(f & Hout & Hf)|(v & f & Hout & Hf)]; rewrite Hout in *;
    destruct results as [|x [|y [|? ?]]]; simplify_eq/=.
  - cbn. destruct (Reflect.IsNil x) as [[]|msg'] eqn:Hnil; cbn.
    + done.
    + unfold assertError. rewrite Hf, Hnil. done.
    + intros [= ->]. eauto.
  - cbn. destruct (Reflect.IsNil y) as [[]|msg'] eqn:Hnil; cbn.
    + done.
    + unfold assertError. rewrite Hf, Hnil. done.
    + intros [= ->]. eauto.
Qed.

(** A descriptor of a reachable server belongs to a service with an
    instance. *)
Lemma reachable_descriptor s name svc key info :
  reachable s →
  services s !! name = Some svc →
  methods svc !! key = Some info →
  ∃ inst, service svc = Some inst ∧ eligible (Method info) ∧
          info = descriptor (Method info) ∧ Reflect.Name (Method info) = key.
Proof.
  intros Hs Hsvc Hkey.
  destruct (reachable_service_inv s Hs _ _ Hsvc _ _ Hkey)
    as (inst & ? & _ & ? & ? & ?). eauto.
Qed.

(** The course of [handleRPC] once service and method are resolved, in a
    reachable server with well-typed instances. *)
Lemma handleRPC_resolved s e serviceName methodName svc info :
  reachable s → well_typed_server s →
  services s !! serviceName = Some svc →
  methods svc !! methodName = Some info →
  handleRPC s e serviceName methodName =
  match Reflect.In (Method info) with
  | [_; t] =>
    match BindBody e t with
    | inl msg =>
      MkStep [BoundBody t]
             (inl (Responded http.StatusBadRequest
                             (BodyErrorf ("Invalid parameters: " +:+ msg))))
    | inr c =>
      called (Method info) [{| Reflect.typ := t; Reflect.content := c |}]
             [BoundBody t] info
    end
  | _ => called (Method info) [] [] info
  end.
Proof.
  intros Hs Hwt Hsvc Hinfo.
  destruct (reachable_service_inv s Hs _ _ Hsvc _ _ Hinfo)
    as (inst & Hinst & Hin & Hname & Hel & Hd).
  destruct (Hwt _ _ _ Hsvc Hinst) as [Hnd _].
  pose proof (lookupMethod_NoDup _ _ Hnd Hin) as Hm.
  unfold handleRPC, called. rewrite Hsvc, Hinfo, Hinst. unfold Reflect.MethodByName.
  rewrite Hm. apply eligible_shape in Hel as (_ & Hshape & _).
  pose proof (f_equal HasParams Hd) as Hhp. pose proof (f_equal Type_ Hd) as Hty.
  simpl in Hhp, Hty.
  destruct Hshape as [(r & Hshape)|(r & t & Hshape)];
    rewrite Hshape in Hhp, Hty |- *; rewrite Hhp, ?Hty.
  - cbn. destruct (Reflect.Func_ (Method info) []) as [results|msg]; cbn; [|done].
    by rewrite trace_respond.
  - cbn. unfold bindBody. destruct (BindBody e t) as [msg|c]; cbn; [done|].
    destruct (Reflect.Func_ (Method info) _) as [results|msg]; cbn; [|done].
    by rewrite trace_respond.
Qed.

(** The course of [handleRPCGet] once service and method are resolved. *)
Lemma handleRPCGet_resolved s e serviceName entityName id svc info :
  reachable s → well_typed_server s →
  services s !! serviceName = Some svc →
  methods svc !! ("Get" +:+ entityName) = Some info →
  handleRPCGet s e serviceName entityName id =
  match Reflect.In (Method info) with
  | [_; t] =>
    match Reflect.TypeKind t with
    | Reflect.String => called (Method info) [Reflect.ValueOfString id] [] info
    | _ =>
      MkStep [] (inl (Responded http.StatusBadRequest
                        (BodyErrorf ("Method '" +:+ ("Get" +:+ entityName)
                                     +:+ "' does not accept a string parameter"))))
    end
  | _ =>
    MkStep [] (inl (Panicked
      "runtime error: invalid memory address or nil pointer dereference"))
  end.
Proof.
  intros Hs Hwt Hsvc Hinfo.
  destruct (reachable_service_inv s Hs _ _ Hsvc _ _ Hinfo)
    as (inst & Hinst & Hin & Hname & Hel & Hd).
  destruct (Hwt _ _ _ Hsvc Hinst) as [Hnd _].
  pose proof (lookupMethod_NoDup _ _ Hnd Hin) as Hm.
  unfold handleRPCGet, called. rewrite Hsvc, Hinfo, Hinst. unfold Reflect.MethodByName.
  rewrite Hm. apply eligible_shape in Hel as (_ & Hshape & _).
  pose proof (f_equal Type_ Hd) as Hty. simpl in Hty.
  destruct Hshape as [(r & Hshape)|(r & t & Hshape)];
    rewrite Hshape in Hty |- *; rewrite Hty; [done|].
  cbn. destruct (Reflect.TypeKind t); cbn; try done.
  destruct (Reflect.Func_ (Method info) _) as [results|msg]; cbn; [|done].
  by rewrite trace_respond.
Qed.

(** The handlers read the server through the entry of the service only. *)
Lemma handleRPC_entry s s' e serviceName methodName :
  services s !! serviceName = services s' !! serviceName →
  handleRPC s e serviceName methodName = handleRPC s' e serviceName methodName.
Proof. intros Heq. unfold handleRPC. by rewrite Heq. Qed.

Lemma handleRPCGet_entry s s' e serviceName entityName id :
  services s !! serviceName = services s' !! serviceName →
  handleRPCGet s e serviceName entityName id = handleRPCGet s' e serviceName entityName id.
Proof. intros Heq. unfold handleRPCGet. by rewrite Heq. Qed.

Lemma called_trace m args before info ev :
  ev ∈ trace (called m args before info) →
  ev ∈ before ∨ ev = Called (Reflect.Name m) args (Reflect.Func_ m args).
Proof.
  unfold called. destruct (Reflect.Func_ m args); simpl;
    rewrite elem_of_app, list_elem_of_singleton; tauto.
Qed.

Section MoreDispatch.
Context `{CaseTables}.

(** Fetch-by-id answers NotFound, with an empty trace, when the service
    is not registered, and when it is but has no method [Get<Entity>]. *)
Theorem fetch_by_id_not_found s e :
  let serviceName := PathValue e "service" in
  let methodName := "Get" +:+ kebabToPascal (PathValue e "entity") in
  (services s !! serviceName = None →
   Bind s GET_service_entity_id e =
   MkStep [] (inl (Responded http.StatusNotFound
                     (BodyErrorf ("Service '" +:+ serviceName +:+ "' not found"))))) ∧
  (∀ svc, services s !! serviceName = Some svc →
          methods svc !! methodName = None →
   Bind s GET_service_entity_id e =
   MkStep [] (inl (Responded http.StatusNotFound
                     (BodyErrorf ("Method '" +:+ methodName +:+
                                  "' not found in service '" +:+ serviceName +:+ "'"))))).
Proof.
  intros serviceName methodName. unfold Bind, handleGet, handleRPCGet.
  fold serviceName methodName. split.
  - intros ->. done.
  - intros svc -> ->. done.
Qed.

(** Invoke-by-name of a method with a parameter, when the body of the
    request does not decode into the parameter type: the handler answers
    BadRequest with the message of the decoder and does not call the
    method. *)
Theorem invoke_by_name_decode_failure s e svc info receiver t msg :
  reachable s →
  services s !! PathValue e "service" = Some svc →
  methods svc !! kebabToPascal (PathValue e "method") = Some info →
  Reflect.In (Method info) = [receiver; t] →
  BindBody e t = inl msg →
  Bind s POST_service_method e =
  MkStep [BoundBody t]
         (inl (Responded http.StatusBadRequest
                         (BodyErrorf ("Invalid parameters: " +:+ msg)))).
Proof.
  intros Hs Hsvc Hinfo Hin Hbind. unfold Bind, handle, handleRPC.
  rewrite Hsvc, Hinfo.
  destruct (reachable_descriptor s _ _ _ _ Hs Hsvc Hinfo) as (inst & -> & _ & Hd & _).
  pose proof (f_equal HasParams Hd) as Hhp. pose proof (f_equal Type_ Hd) as Hty.
  simpl in Hhp, Hty. rewrite Hin in Hhp, Hty. rewrite Hhp, Hty.
  cbn. unfold bindBody. rewrite Hbind. done.
Qed.

(** Whenever a handler has called a method that returned a result and a
    nil failure, it answers OK with the result as the body. *)
Theorem result_is_the_success_body s r e nm args v failure :
  reachable s → well_typed_server s →
  Called nm args (Ok [v; failure]) ∈ trace (Bind s r e) →
  Reflect.IsNil failure = Ok true →
  next (Bind s r e) = inl (Responded http.StatusOK (BodyValue v)).
Proof.
  intros Hs Hwt Hcalled Hnil.
  assert (∃ name svc key info inst m,
             services s !! name = Some svc ∧ methods svc !! key = Some info ∧
             service svc = Some inst ∧
             Reflect.lookupMethod (Reflect.Methods inst) (Reflect.Name (Method info)) = Some m ∧
             Ok [v; failure] = Reflect.Func_ m args ∧
             next (Bind s r e) = next (respond info [v; failure]))
    as (name & svc & key & info & inst & m & Hsvc & Hkey & Hinst & Hm & Hres & ->).
  { destruct r; simpl in *; unfold handle, handleGet in *.
    - apply handleRPC_called in Hcalled
        as (svc & info & inst & m & ? & ? & ? & ? & ? & ? & Hnext).
      eexists _, _, _, _, _, _. repeat split; eauto.
    - apply handleRPCGet_called in Hcalled
        as (svc & info & inst & m & ? & ? & ? & ? & ? & ? & Hnext).
      eexists _, _, _, _, _, _. repeat split; eauto. }
  destruct (called_method_of_descriptor _ _ _ _ _ _ _ Hs Hwt Hsvc Hkey Hinst Hm)
    as (-> & Hel & -> & Hty).
  by rewrite (respond_result _ _ _ _ Hel (Hty _ _ (eq_sym Hres)) eq_refl Hnil).
Qed.

(** Whenever a handler has called a method and [IsNil] panics on the
    failure returned, as it does on a failure of a kind without nil (a
    struct that implements [error]), the handler ends in that panic and
    writes no response. *)
Theorem failure_without_nil_panics s r e nm args results failure msg :
  reachable s → well_typed_server s →
  Called nm args (Ok results) ∈ trace (Bind s r e) →
  last results = Some failure →
  Reflect.IsNil failure = Panic msg →
  next (Bind s r e) = inl (Panicked msg).
Proof.
  intros Hs Hwt Hcalled Hlast Hnil.
  assert (∃ name svc key info inst m,
             services s !! name = Some svc ∧ methods svc !! key = Some info ∧
             service svc = Some inst ∧
             Reflect.lookupMethod (Reflect.Methods inst) (Reflect.Name (Method info)) = Some m ∧
             Ok results = Reflect.Func_ m args ∧
             next (Bind s r e) = next (respond info results))
    as (name & svc & key & info & inst & m & Hsvc & Hkey & Hinst & Hm & Hres & ->).
  { destruct r; simpl in *; unfold handle, handleGet in *.
    - apply handleRPC_called in Hcalled
        as (svc & info & inst & m & ? & ? & ? & ? & ? & ? & Hnext).
      eexists _, _, _, _, _, _. repeat split; eauto.
    - apply handleRPCGet_called in Hcalled
        as (svc & info & inst & m & ? & ? & ? & ? & ? & ? & Hnext).
      eexists _, _, _, _, _, _. repeat split; eauto. }
  destruct (called_method_of_descriptor _ _ _ _ _ _ _ Hs Hwt Hsvc Hkey Hinst Hm)
    as (-> & Hel & -> & Hty).
  by rewrite (respond_isnil_panics _ _ _ _ Hel (Hty _ _ (eq_sym Hres)) Hlast Hnil).
Qed.

(** Fetch-by-id never binds the body of the request, and a call it makes
    is the one event of the trace: a call of the method [Get<Entity>] with
    the id of the path as its one argument. *)
Theorem fetch_by_id_calls_with_the_id s e :
  reachable s → well_typed_server s →
  (∀ t, BoundBody t ∉ trace (Bind s GET_service_entity_id e)) ∧
  (∀ nm args res,
     Called nm args res ∈ trace (Bind s GET_service_entity_id e) →
     nm = "Get" +:+ kebabToPascal (PathValue e "entity") ∧
     args = [Reflect.ValueOfString (PathValue e "id")] ∧
     trace (Bind s GET_service_entity_id e) = [Called nm args res]).
Proof.
  intros Hs Hwt. unfold Bind, handleGet.
  set (sn := PathValue e "service"). set (en := kebabToPascal (PathValue e "entity")).
  set (id := PathValue e "id").
  destruct (services s !! sn) as [svc|] eqn:Hsvc.
  2:{ unfold handleRPCGet. rewrite Hsvc. simpl. split; intros; by apply not_elem_of_nil
        || (exfalso; eapply not_elem_of_nil; eauto). }
  destruct (methods svc !! ("Get" +:+ en)) as [info|] eqn:Hinfo.
  2:{ unfold handleRPCGet. rewrite Hsvc, Hinfo. simpl. split; intros; by apply not_elem_of_nil
        || (exfalso; eapply not_elem_of_nil; eauto). }
  rewrite (handleRPCGet_resolved s e sn en id svc info Hs Hwt Hsvc Hinfo).
  destruct (reachable_descriptor s _ _ _ _ Hs Hsvc Hinfo) as (_ & _ & _ & _ & Hname).
  assert (Hnone : ∀ (o : Outcome) (ev : Event), ev ∉ trace (MkStep (A:=Empty_set) [] (inl o)))
    by (intros; apply not_elem_of_nil).
  destruct (Reflect.In (Method info)) as [|? [|t [|? ?]]];
    try (split; [intros; apply Hnone|intros ??? Hin; by apply Hnone in Hin]).
  destruct (Reflect.TypeKind t);
    try (split; [intros; apply Hnone|intros ??? Hin; by apply Hnone in Hin]).
  unfold called. rewrite Hname.
  destruct (Reflect.Func_ (Method info) _) as [results|msg]; simpl.
  - split; [intros t' Hin; by apply list_elem_of_singleton in Hin|].
    intros nm args res Hin%list_elem_of_singleton. by simplify_eq.
  - split; [intros t' Hin; by apply list_elem_of_singleton in Hin|].
    intros nm args res Hin%list_elem_of_singleton. by simplify_eq.
Qed.

(** Invoke-by-name calls the method named by the converted slug, and no
    other: a method without parameter is called without argument and
    nothing is bound; a method with a parameter is called, after the body
    has been bound to its parameter type, with the value decoded. *)
Theorem invoke_by_name_call s e nm args res :
  reachable s → well_typed_server s →
  Called nm args res ∈ trace (Bind s POST_service_method e) →
  ∃ svc info,
    services s !! PathValue e "service" = Some svc ∧
    methods svc !! kebabToPascal (PathValue e "method") = Some info ∧
    nm = kebabToPascal (PathValue e "method") ∧
    ((Type_ info = None ∧ args = [] ∧
      trace (Bind s POST_service_method e) = [Called nm args res]) ∨
     (∃ t c, Type_ info = Some t ∧ BindBody e t = inr c ∧
             args = [{| Reflect.typ := t; Reflect.content := c |}] ∧
             trace (Bind s POST_service_method e) = [BoundBody t; Called nm args res])).
Proof.
  intros Hs Hwt. unfold Bind, handle.
  set (sn := PathValue e "service"). set (mn := kebabToPascal (PathValue e "method")).
  intros Hcalled.
  destruct (handleRPC_called _ _ _ _ _ _ _ Hcalled)
    as (svc & info & _ & _ & Hsvc & Hinfo & _).
  exists svc, info. split; [done|]. split; [done|].
  rewrite (handleRPC_resolved s e sn mn svc info Hs Hwt Hsvc Hinfo) in Hcalled |- *.
  destruct (reachable_descriptor s _ _ _ _ Hs Hsvc Hinfo) as (? & ? & ? & Hd & Hname).
  pose proof (f_equal Type_ Hd) as Hty. simpl in Hty.
  assert (Hnil : ∀ m a, trace (called m a [] info)
                        = [Called (Reflect.Name m) a (Reflect.Func_ m a)])
    by (intros; unfold called; by destruct (Reflect.Func_ _ _)).
  assert (Hone : ∀ m a ev, trace (called m a [ev] info)
                           = [ev; Called (Reflect.Name m) a (Reflect.Func_ m a)])
    by (intros; unfold called; by destruct (Reflect.Func_ _ _)).
  destruct (Reflect.In (Method info)) as [|r0 [|t [|t' l]]] eqn:Hin.
  1,2,4: rewrite Hnil in Hcalled |- *; apply list_elem_of_singleton in Hcalled;
         simplify_eq; split; [done|]; left; by rewrite Hty.
  destruct (BindBody e t) as [msg|c] eqn:Hbind.
  - simpl in Hcalled. by apply list_elem_of_singleton in Hcalled.
  - rewrite Hone in Hcalled |- *.
    apply elem_of_cons in Hcalled as [?|Hcalled%list_elem_of_singleton]; [done|].
    simplify_eq. split; [done|]. right. exists t, c. by rewrite Hty.
Qed.

(** A handler panics in three places only.  The first is the call
    [methodValue.Call] (309, 312, 373): [Value.Call] refuses the arguments
    before the method runs, as it does on fetch-by-id for a parameter of
    kind [String] whose type is not [string], or the method itself panics;
    the trace holds the call with its panic either way.  The second is
    [IsNil] on the failure returned (318, 327, 378, 387).  The third, on
    fetch-by-id, is [argType.Kind()] (365) for a method that takes no
    parameter.  [MethodByName], [reflect.New], the indexing of the results
    and the assertion [.(error)] do not panic. *)
Theorem handler_panics_only_there s r e msg :
  reachable s → well_typed_server s →
  next (Bind s r e) = inl (Panicked msg) →
  ∃ svc info,
    services s !! PathValue e "service" = Some svc ∧
    methods svc !! resolvedName r e = Some info ∧
    ((∃ args,
        Reflect.Call (Some (Method info)) args = Panic msg ∧
        Called (Reflect.Name (Method info)) args (Panic msg) ∈ trace (Bind s r e)) ∨
     (∃ args results failure,
        Called (Reflect.Name (Method info)) args (Ok results) ∈ trace (Bind s r e) ∧
        last results = Some failure ∧ Reflect.IsNil failure = Panic msg) ∨
     (r = GET_service_entity_id ∧
      (∃ receiver, Reflect.In (Method info) = [receiver]) ∧
      Reflect.KindOf (Type_ info) = Panic msg ∧
      trace (Bind s r e) = [])).
Proof.
  intros Hs Hwt.
  assert (Hcalled : ∀ svc name key info args before,
            services s !! name = Some svc → methods svc !! key = Some info →
            next (called (Method info) args before info) = inl (Panicked msg) →
            (∃ a, Reflect.Call (Some (Method info)) a = Panic msg ∧
                  Called (Reflect.Name (Method info)) a (Panic msg)
                  ∈ trace (called (Method info) args before info)) ∨
            (∃ a results failure,
                Called (Reflect.Name (Method info)) a (Ok results)
                ∈ trace (called (Method info) args before info) ∧
                last results = Some failure ∧ Reflect.IsNil failure = Panic msg)).
  { intros svc name key info args before Hsvc Hinfo. unfold called.
    destruct (reachable_service_inv s Hs _ _ Hsvc _ _ Hinfo)
      as (inst & Hinst & Hin & _ & Hel & Hd).
    destruct (Hwt _ _ _ Hsvc Hinst) as [_ Hall]. rewrite Forall_forall in Hall.
    destruct (Reflect.Func_ (Method info) args) as [results|msg'] eqn:Hcall; simpl.
    - intros Hnext. right. rewrite Hd in Hnext.
      destruct (respond_panics _ _ _ Hel (Hall _ Hin _ _ Hcall) Hnext) as (f & ? & ?).
      exists args, results, f.
      split; [|done]. apply elem_of_app. right. apply list_elem_of_here.
    - intros [= ->]. left. exists args. split; [exact Hcall|].
      apply elem_of_app. right. apply list_elem_of_here. }
  destruct r; unfold Bind, handle, handleGet, resolvedName.
  - set (sn := PathValue e "service"). set (mn := kebabToPascal (PathValue e "method")).
    destruct (services s !! sn) as [svc|] eqn:Hsvc;
      [|unfold handleRPC; by rewrite Hsvc].
    destruct (methods svc !! mn) as [info|] eqn:Hinfo;
      [|unfold handleRPC; by rewrite Hsvc, Hinfo].
    rewrite (handleRPC_resolved s e sn mn svc info Hs Hwt Hsvc Hinfo).
    intros Hnext. exists svc, info. split; [done|]. split; [done|].
    destruct (Reflect.In (Method info)) as [|r0 [|t [|t' l]]];
      try (destruct (Hcalled _ _ _ _ _ _ Hsvc Hinfo Hnext); tauto).
    destruct (BindBody e t) as [?|c]; [done|].
    destruct (Hcalled _ _ _ _ _ _ Hsvc Hinfo Hnext); tauto.
  - set (sn := PathValue e "service"). set (en := kebabToPascal (PathValue e "entity")).
    destruct (services s !! sn) as [svc|] eqn:Hsvc;
      [|unfold handleRPCGet; by rewrite Hsvc].
    destruct (methods svc !! ("Get" +:+ en)) as [info|] eqn:Hinfo;
      [|unfold handleRPCGet; by rewrite Hsvc, Hinfo].
    rewrite (handleRPCGet_resolved s e sn en _ svc info Hs Hwt Hsvc Hinfo).
    intros Hnext. exists svc, info. split; [done|]. split; [done|].
    destruct (reachable_descriptor s _ _ _ _ Hs Hsvc Hinfo) as (? & ? & Hel & Hd & ?).
    pose proof (f_equal Type_ Hd) as Hty. simpl in Hty.
    apply eligible_shape in Hel as (_ & Hshape & _).
    destruct Hshape as [(r0 & Hin)|(r0 & t & Hin)]; rewrite Hin in Hnext, Hty |- *.
    + right. right. split; [done|]. split; [by exists r0|].
      rewrite Hty. simpl in Hnext |- *. split; [by simplify_eq|done].
    + destruct (Reflect.TypeKind t); try done.
      destruct (Hcalled _ _ _ _ _ _ Hsvc Hinfo Hnext); tauto.
Qed.

(** Registering a service leaves the answer to every request for another
    service as it was. *)
Theorem RegisterService_keeps_other_answers s name service reg r e :
  PathValue e "service" ≠ name →
  RegisterService s name service = Ok reg →
  Bind (server reg) r e = Bind s r e.
Proof.
  intros Hne Hreg.
  destruct (RegisterService_returns s name service) as (table & _ & log & Heq).
  rewrite Heq in Hreg. simplify_eq.
  destruct r; unfold Bind, handle, handleGet;
    [apply handleRPC_entry|apply handleRPCGet_entry]; simpl;
    by rewrite lookup_insert_ne.
Qed.

(** A service registered with a nil instance answers NotFound, for the
    method, to every request on both routes. *)
Theorem nil_service_answers_not_found s name :
  ∃ reg, RegisterService s name None = Ok reg ∧
    ∀ r e, PathValue e "service" = name →
      Bind (server reg) r e =
      MkStep [] (inl (Responded http.StatusNotFound
                        (BodyErrorf ("Method '" +:+ resolvedName r e +:+
                                     "' not found in service '" +:+ name +:+ "'")))).
Proof.
  eexists. split; [reflexivity|]. intros r e Hname.
  destruct r; unfold Bind, handle, handleGet, handleRPC, handleRPCGet, resolvedName;
    rewrite Hname; simpl; rewrite lookup_insert_eq; simpl; by rewrite lookup_empty.
Qed.

End MoreDispatch.

(* ===================================================================== *)
(** ** More on the registry *)
(* ===================================================================== *)

(** In a reachable server the descriptor stored under a name carries that
    name, and a descriptor whose instance is nil has no method. *)
Theorem registry_entries_are_named s name svc :
  reachable s →
  services s !! name = Some svc →
  serviceName svc = name ∧ (service svc = None → methods svc = ∅).
Proof.
  induction 1 as [|s n service reg _ IH Hreg]; intros Hsvc.
  - simpl in Hsvc. by rewrite lookup_empty in Hsvc.
  - destruct (RegisterService_returns s n service) as (table & Htable & log & Heq).
    rewrite Heq in Hreg. simplify_eq. simpl in Hsvc.
    destruct (decide (n = name)) as [->|Hne].
    + rewrite lookup_insert_eq in Hsvc. simplify_eq. simpl. split; [done|].
      intros ->. done.
    + rewrite lookup_insert_ne in Hsvc by done. by apply IH.
Qed.

(** Registering adds the name to the names registered, and nothing else:
    a fresh name makes the registry one larger, a name registered before
    leaves its size. *)
Theorem RegisterService_names s name service :
  ∃ reg, RegisterService s name service = Ok reg ∧
         dom (services (server reg)) = {[name]} ∪ dom (services s) ∧
         size (services (server reg)) =
         match services s !! name with
         | None => S (size (services s))
         | Some _ => size (services s)
         end.
Proof.
  destruct (RegisterService_returns s name service) as (table & _ & log & ->).
  eexists. split; [done|]. simpl. split; [apply dom_insert_L|].
  destruct (services s !! name) as [old|] eqn:Hold.
  - rewrite <- (insert_delete_id (services s) name old Hold) at 2.
    rewrite <- (insert_delete_eq (services s)).
    rewrite !map_size_insert_None by apply lookup_delete_eq. done.
  - by rewrite map_size_insert_None.
Qed.

(** The descriptor a registration stores depends on the name and the
    instance only. *)
Lemma RegisterService_descriptor name service :
  ∃ table, ∀ s, ∃ log,
    RegisterService s name service =
    Ok {| server := {| services :=
                         <[name := {| service := service; methods := table;
                                      serviceName := name |}]> (services s) |};
          logged := log; err := None |}.
Proof.
  unfold RegisterService. destruct service as [inst|].
  - destruct (registerMethods_total (Reflect.Methods inst) ∅) as [table ->].
    exists table. intros s. simpl. eauto.
  - exists ∅. eauto.
Qed.

(** Registrations under two names can be made in either order. *)
Theorem RegisterService_commutes s name1 a name2 b :
  name1 ≠ name2 →
  ∃ r1 r12 r2 r21,
    RegisterService s name1 a = Ok r1 ∧
    RegisterService (server r1) name2 b = Ok r12 ∧
    RegisterService s name2 b = Ok r2 ∧
    RegisterService (server r2) name1 a = Ok r21 ∧
    server r12 = server r21.
Proof.
  intros Hne.
  destruct (RegisterService_descriptor name1 a) as [ta Ha].
  destruct (RegisterService_descriptor name2 b) as [tb Hb].
  destruct (Ha s) as [la H1]. destruct (Hb s) as [lb H2].
  destruct (Hb {| services := <[name1 := {| service := a; methods := ta;
                                            serviceName := name1 |}]> (services s) |})
    as [l12 H12].
  destruct (Ha {| services := <[name2 := {| service := b; methods := tb;
                                            serviceName := name2 |}]> (services s) |})
    as [l21 H21].
  eexists _, _, _, _. split; [exact H1|]. split; [exact H12|].
  split; [exact H2|]. split; [exact H21|]. simpl. f_equal. by apply insert_insert_ne.
Qed.

(** What [RegisterService] writes to the log: nothing for a nil instance;
    otherwise the heading and one line for each name it has registered,
    that is, for each eligible method of the instance. *)
Theorem RegisterService_log s name service :
  ∃ reg, RegisterService s name service = Ok reg ∧
    match service with
    | None => logged reg = []
    | Some inst =>
      ∃ lines,
        logged reg = ("Registered service '" +:+ name +:+ "' with methods:") :: lines ∧
        NoDup lines ∧
        ∀ line, line ∈ lines ↔
                ∃ m, m ∈ Reflect.Methods inst ∧ eligible m ∧
                     line = "  - " +:+ Reflect.Name m
    end.
Proof.
  unfold RegisterService. destruct service as [inst|]; [|eauto].
  destruct (registerMethods_total (Reflect.Methods inst) ∅) as [table Htable].
  rewrite Htable. simpl. eexists. split; [done|]. simpl.
  eexists. split; [done|]. split.
  - apply NoDup_fmap_2_strong; [|apply NoDup_map_to_list].
    intros [k1 i1] [k2 i2] H1%elem_of_map_to_list H2%elem_of_map_to_list Heq.
    simpl in Heq. apply (inj (String.app "  - ")) in Heq. simplify_eq. done.
  - intros line. rewrite list_elem_of_fmap. split.
    + intros ([k info] & -> & Hk%elem_of_map_to_list).
      destruct (registerMethods_lookup_Some _ _ _ _ _ Htable Hk)
        as [Hempty|(m & ? & <- & ? & _)]; [by rewrite lookup_empty in Hempty|].
      eauto.
    + intros (m & Hin & Hel & ->).
      destruct (registerMethods_lookup_is_Some _ _ _ (Reflect.Name m) Htable) as [info Hinfo];
        [right; eauto|].
      exists (Reflect.Name m, info). split; [done|]. by apply elem_of_map_to_list.
Qed.

(* ===================================================================== *)
(** ** More on the conversion of slugs *)
(* ===================================================================== *)

Lemma concat_nil_cons x l : String.concat "" (x :: l) = x +:+ String.concat "" l.
Proof. destruct l; simpl; [by rewrite append_nil_r|done]. Qed.

Lemma concat_nil_app l1 l2 :
  String.concat "" (l1 ++ l2) = String.concat "" l1 +:+ String.concat "" l2.
Proof.
  induction l1 as [|x l1 IH]; [done|].
  rewrite <- app_comm_cons, !concat_nil_cons, IH. by rewrite append_assoc.
Qed.

Lemma tokens_app_hyphen s t : ∀ cur,
  tokens cur (s +:+ String "-" t) = tokens cur s ++ tokens "" t.
Proof.
  induction s as [|c s IH]; intros cur.
  - rewrite append_nil_l. simpl. by rewrite ?Ascii.eqb_refl.
  - rewrite append_cons. simpl. destruct (Ascii.eqb c "-"); by rewrite IH.
Qed.

Lemma lowercase_app s t : lowercase (s +:+ t) = lowercase s +:+ lowercase t.
Proof. induction s as [|c s IH]; [done|]. rewrite append_cons. simpl. by rewrite IH. Qed.

Lemma lower_char_hyphen c : Ascii.eqb (lower_char c) "-" = Ascii.eqb c "-".
Proof. destruct c as [[] [] [] [] [] [] [] []]; reflexivity. Qed.

Lemma upper_lower_char c : upper_char (lower_char c) = upper_char c.
Proof. destruct c as [[] [] [] [] [] [] [] []]; reflexivity. Qed.

Lemma lower_lower_char c : lower_char (lower_char c) = lower_char c.
Proof. destruct c as [[] [] [] [] [] [] [] []]; reflexivity. Qed.

Lemma lower_char_not_upper c : is_upper c = false → lower_char c = c.
Proof. destruct c as [[] [] [] [] [] [] [] []]; (reflexivity || discriminate). Qed.

Lemma upper_lower_char_upper c : is_upper c = true → upper_char (lower_char c) = c.
Proof. destruct c as [[] [] [] [] [] [] [] []]; (reflexivity || discriminate). Qed.

Lemma upper_lower_char_first c : is_lower c = false → upper_char (lower_char c) = c.
Proof. destruct c as [[] [] [] [] [] [] [] []]; (reflexivity || discriminate). Qed.

Lemma lower_char_ascii c : byte_val c < 128 → byte_val (lower_char c) < 128.
Proof. destruct c as [[] [] [] [] [] [] [] []]; vm_compute; done. Qed.

Lemma hyphen_byte c : byte_val c ≠ 45 → Ascii.eqb c "-" = false.
Proof.
  intros Hc. destruct (Ascii.eqb_spec c "-") as [->|]; [|done]. by destruct Hc.
Qed.

Lemma lowercase_lowercase s : lowercase (lowercase s) = lowercase s.
Proof. induction s as [|c s IH]; simpl; [done|]. by rewrite IH, lower_lower_char. Qed.

Lemma capitalize_lowercase t : capitalize (lowercase t) = capitalize t.
Proof.
  destruct t as [|c t]; simpl; [done|]. by rewrite upper_lower_char, lowercase_lowercase.
Qed.

Lemma tokens_lowercase s : ∀ cur,
  tokens (lowercase cur) (lowercase s) = lowercase <$> tokens cur s.
Proof.
  induction s as [|c s IH]; intros cur; simpl; [done|].
  rewrite lower_char_hyphen. destruct (Ascii.eqb c "-").
  - rewrite fmap_cons. f_equal. apply (IH EmptyString).
  - rewrite <- IH. by rewrite lowercase_app.
Qed.

Lemma lowercase_ascii s : ascii_string s → ascii_string (lowercase s).
Proof.
  unfold ascii_string. induction s as [|c s IH]; simpl; [done|].
  intros [Hc Hs]%Forall_cons. constructor; [by apply lower_char_ascii|by apply IH].
Qed.

Lemma pascal_of_slug_lowercase s : pascal_of_slug (lowercase s) = pascal_of_slug s.
Proof.
  unfold pascal_of_slug.
  change (tokens "" (lowercase s)) with (tokens (lowercase "") (lowercase s)).
  rewrite (tokens_lowercase s EmptyString). f_equal. rewrite <- list_fmap_compose. apply list_fmap_ext.
  intros _ t _. apply capitalize_lowercase.
Qed.

Lemma capitalize_app cur x :
  cur ≠ EmptyString → capitalize (cur +:+ x) = capitalize cur +:+ lowercase x.
Proof.
  destruct cur as [|a cur]; [done|]. intros _. rewrite append_cons. simpl.
  by rewrite lowercase_app, append_cons.
Qed.

Lemma lowercase_no_upper s :
  Forall (fun c => is_upper c = false) (list_ascii_of_string s) → lowercase s = s.
Proof.
  induction s as [|c s IH]; simpl; [done|].
  intros [Hc Hs]%Forall_cons. by rewrite IH, lower_char_not_upper.
Qed.

Lemma tokens_cons_hyphen cur s : tokens cur (String "-" s) = cur :: tokens "" s.
Proof. reflexivity. Qed.

Lemma tokens_cons_other cur c s :
  Ascii.eqb c "-" = false → tokens cur (String c s) = tokens (cur +:+ String c "") s.
Proof. intros Hc. simpl. by rewrite Hc. Qed.

(** The tokens of a slug written by [kebab_tail], capitalized and
    concatenated, give the name back after the token that was open. *)
Lemma pascal_of_kebab_tail s : ∀ cur,
  cur ≠ EmptyString → hyphen_free s →
  String.concat "" (capitalize <$> tokens cur (kebab_tail s)) = capitalize cur +:+ s.
Proof.
  unfold hyphen_free.
  induction s as [|c s IH]; intros cur Hcur Hs.
  - simpl. by rewrite append_nil_r.
  - simpl in Hs. apply Forall_cons in Hs as [Hc Hs].
    cbn [kebab_tail]. destruct (is_upper c) eqn:Hup.
    + rewrite tokens_cons_hyphen, fmap_cons, concat_nil_cons.
      rewrite tokens_cons_other by (rewrite lower_char_hyphen; by apply hyphen_byte).
      rewrite append_nil_l, IH by done.
      change (capitalize (String (lower_char c) "")) with (String (upper_char (lower_char c)) "").
      by rewrite (upper_lower_char_upper c Hup).
    + rewrite tokens_cons_other by (by apply hyphen_byte).
      rewrite IH by (done || by destruct cur).
      rewrite capitalize_app by done.
      change (lowercase (String c "")) with (String (lower_char c) "").
      by rewrite (lower_char_not_upper c Hup), append_assoc.
Qed.

Lemma kebab_tail_ascii s : ascii_string s → ascii_string (kebab_tail s).
Proof.
  unfold ascii_string. induction s as [|c s IH]; simpl; [done|].
  intros [Hc Hs]%Forall_cons. destruct (is_upper c); simpl.
  - constructor; [vm_compute; done|]. constructor; [by apply lower_char_ascii|by apply IH].
  - constructor; [done|by apply IH].
Qed.

Section MoreConversion.
Context `{CaseTables}.

(** [kebabToPascal] converts the two sides of a hyphen separately, for
    every string: a hyphen only separates, and an empty token adds
    nothing. *)
Theorem kebabToPascal_splits_at_hyphens s t :
  kebabToPascal (s +:+ "-" +:+ t) = kebabToPascal s +:+ kebabToPascal t.
Proof.
  unfold kebabToPascal. rewrite !Split_hyphen, !Join_concat.
  change ("-" +:+ t) with (String "-" t).
  rewrite tokens_app_hyphen, map_app. apply concat_nil_app.
Qed.

(** Slugs of ASCII characters that differ in case only convert to the same
    name. *)
Theorem kebabToPascal_ignores_case s s' :
  ascii_string s → ascii_string s' →
  lowercase s = lowercase s' →
  kebabToPascal s = kebabToPascal s'.
Proof.
  intros Hs Hs' Heq.
  rewrite (kebabToPascal_ascii s Hs), (kebabToPascal_ascii s' Hs').
  by rewrite <- (pascal_of_slug_lowercase s), <- (pascal_of_slug_lowercase s'), Heq.
Qed.

(** Every name of ASCII characters without hyphen that does not begin with
    a lowercase letter is the conversion of its slug: a method with such a
    name can be named on the invoke-by-name route. *)
Theorem kebabToPascal_of_kebab name :
  ascii_string name → hyphen_free name → not_lower_first name →
  kebabToPascal (kebab_of name) = name.
Proof.
  intros Hascii Hfree Hfirst. destruct name as [|c s]; [done|].
  unfold ascii_string, hyphen_free in *. simpl in Hascii, Hfree, Hfirst.
  apply Forall_cons in Hascii as [Hc Hs]. apply Forall_cons in Hfree as [Hc' Hs'].
  rewrite kebabToPascal_ascii.
  - unfold pascal_of_slug, kebab_of.
    rewrite tokens_cons_other by (rewrite lower_char_hyphen; by apply hyphen_byte).
    rewrite append_nil_l, pascal_of_kebab_tail by done.
    change (capitalize (String (lower_char c) "")) with (String (upper_char (lower_char c)) "").
    by rewrite (upper_lower_char_first c Hfirst).
  - unfold kebab_of, ascii_string. simpl.
    constructor; [by apply lower_char_ascii|]. by apply kebab_tail_ascii.
Qed.

End MoreConversion.

(* ===================================================================== *)
(** ** Package [dsl] *)
(* ===================================================================== *)

Section IntArithmetic.
Context `{IntSize}.

Lemma intBits_pos : 0 < 2 ^ (intBits - 1) ∧ 2 ^ intBits = 2 * 2 ^ (intBits - 1).
Proof. destruct intBits_cases as [-> | ->]; split; reflexivity. Qed.

Lemma wrap_inInt z : Dsl.inInt (Dsl.wrap z).
Proof.
  unfold Dsl.inInt, Dsl.wrap. destruct intBits_pos as [Hpos Hdouble].
  pose proof (Z.mod_pos_bound (z + 2 ^ (intBits - 1)) (2 ^ intBits)). lia.
Qed.

Lemma wrap_congruent z : ∃ k, Dsl.wrap z = z + k * 2 ^ intBits.
Proof.
  unfold Dsl.wrap. destruct intBits_pos as [Hpos Hdouble].
  exists (- ((z + 2 ^ (intBits - 1)) / 2 ^ intBits)).
  pose proof (Z.div_mod (z + 2 ^ (intBits - 1)) (2 ^ intBits)). lia.
Qed.

Lemma wrap_product a b :
  Dsl.inInt (a * b) → Dsl.wrap (Dsl.wrap a * b) = a * b.
Proof.
  intros Hab. pose proof (wrap_inInt (Dsl.wrap a * b)) as Hw.
  destruct (wrap_congruent a) as [k1 Hk1].
  destruct (wrap_congruent (Dsl.wrap a * b)) as [k2 Hk2].
  unfold Dsl.inInt in *. destruct intBits_pos as [Hpos Hdouble].
  rewrite Hk2, Hk1 in Hw |- *.
  replace ((a + k1 * 2 ^ intBits) * b + k2 * 2 ^ intBits)
    with (a * b + (k1 * b + k2) * 2 ^ intBits) in * by ring.
  clear Hk1 Hk2. rewrite Hdouble in *.
  set (K := k1 * b + k2) in *. set (P := a * b) in *. set (h := 2 ^ (intBits - 1)) in *.
  clearbody K P h. assert (K = 0) as -> by nia. lia.
Qed.

(** The offset [List] asks the store for is never negative; whenever the
    product [(page - 1) * perPage] fits an [int] it is that product, and 0
    if the product is negative.  So, with a [perPage] that is not negative,
    the pages 1, 0 and below all begin at the first record; with a negative
    [perPage] a page below 1 has a positive product, and begins that many
    records further on. *)
Theorem listOffset_of_page query :
  let product := (Dsl.page query - 1) * Dsl.perPage query in
  0 ≤ Dsl.listOffset query ∧ Dsl.inInt (Dsl.listOffset query) ∧
  (Dsl.inInt product → Dsl.listOffset query = Z.max 0 product) ∧
  (Dsl.inInt product → Dsl.page query ≤ 1 → 0 ≤ Dsl.perPage query →
   Dsl.listOffset query = 0) ∧
  (Dsl.inInt product → Dsl.page query < 1 → Dsl.perPage query < 0 →
   Dsl.listOffset query = (1 - Dsl.page query) * - Dsl.perPage query ∧
   0 < Dsl.listOffset query).
Proof.
  intros product.
  assert (Hmax : Dsl.inInt product → Dsl.listOffset query = Z.max 0 product).
  { intros Hfit. unfold Dsl.listOffset. rewrite (wrap_product _ _ Hfit).
    fold product. destruct (Z.ltb_spec product 0); lia. }
  unfold Dsl.listOffset in *.
  pose proof (wrap_inInt (Dsl.wrap (Dsl.page query - 1) * Dsl.perPage query)) as Hw.
  destruct intBits_pos as [Hpos _]. unfold Dsl.inInt in *.
  split; [|split; [|split; [|split]]].
  - destruct (Z.ltb_spec (Dsl.wrap (Dsl.wrap (Dsl.page query - 1) * Dsl.perPage query)) 0); lia.
  - destruct (Z.ltb_spec (Dsl.wrap (Dsl.wrap (Dsl.page query - 1) * Dsl.perPage query)) 0); lia.
  - exact Hmax.
  - intros Hfit Hpage Hper. rewrite (Hmax Hfit). subst product. nia.
  - intros Hfit Hpage Hper. rewrite (Hmax Hfit). subst product. nia.
Qed.

End IntArithmetic.

Section CollectionProperties.
Context `{IntSize} `{DslLibrary}.
Context {DB Rec Coll Exp : Type}.
Implicit Types c : Dsl.CollectionQueryBuilder (DB := DB) (Rec := Rec) (Coll := Coll) (Exp := Exp).

(** [First] reads the filter, the sort and the expand of the query, [List]
    these and the page: the parameters that [QueryBuilder.Params] has
    stored in the query are read by neither, and [First] is the same on
    every page. *)
Theorem queries_are_read_through_these_fields c q q' args (db : DB) :
  Dsl.filter q = Dsl.filter q' → Dsl.sort q = Dsl.sort q' →
  Dsl.expand q = Dsl.expand q' →
  Dsl.First c q args db = Dsl.First c q' args db ∧
  (Dsl.page q = Dsl.page q' → Dsl.perPage q = Dsl.perPage q' →
   Dsl.List c q args db = Dsl.List c q' args db).
Proof.
  intros Hf Hs He. split.
  - unfold Dsl.First, Dsl.expandsOf. by rewrite Hf, Hs, He.
  - intros Hp Hn. unfold Dsl.List, Dsl.expandsOf, Dsl.listOffset.
    by rewrite Hf, Hs, He, Hp, Hn.
Qed.

(** When [First] returns a record, the store has answered the filter,
    asked for one record from the start, with at least one record, and
    the record returned is the first of them: as it is when the query
    names no expansion, expanded without error when it names one. *)
Theorem First_returns_the_first_found c q args (db db' : DB) record :
  Dsl.First c q args db = (inl record, db') →
  ∃ r0 rest db1,
    Dsl.FindRecordsByFilter (Dsl.app c) db (Dsl.collection c)
                            (Dsl.filter q) (Dsl.sort q) 1 0 args
    = (inl (r0 :: rest), db1) ∧
    if String.eqb (Dsl.expand q) ""
    then record = r0 ∧ db' = db1
    else Dsl.ExpandRecord (Dsl.app c) db1 r0 (Dsl.expandsOf q) = ((record, ∅), db').
Proof.
  unfold Dsl.First.
  destruct (Dsl.FindRecordsByFilter _ _ _ _ _ _ _ _) as [[[|r0 rest]|err] db1]; try done.
  intros Hfirst. exists r0, rest, db1. split; [done|].
  destruct (String.eqb (Dsl.expand q) ""); simpl in Hfirst.
  - by simplify_eq.
  - destruct (Dsl.ExpandRecord _ _ _ _) as [[r errs] db2].
    destruct (Nat.ltb_spec 0 (size errs)) as [|Hsize]; [done|].
    simplify_eq. assert (errs = ∅) as -> by (apply map_size_empty_iff; lia). done.
Qed.

Lemma expandAll_records (a : Dsl.App (DB := DB) (Rec := Rec) (Coll := Coll) (Exp := Exp))
    expands : ∀ (found records : list Rec) (db db' : DB),
  Dsl.expandAll a db found expands = (inl records, db') →
  Forall2 (fun r f => ∃ dba dbb, Dsl.ExpandRecord a dba f expands = ((r, ∅), dbb))
          records found.
Proof.
  induction found as [|f found IH]; intros records db db'; simpl.
  - intros [= <- _]. constructor.
  - destruct (Dsl.ExpandRecord a db f expands) as [[r errs] db1] eqn:Hexp.
    destruct (Nat.ltb_spec 0 (size errs)) as [|Hsize]; [done|].
    destruct (Dsl.expandAll a db1 found expands) as [[rest|err] db2] eqn:Hrest; [|done].
    intros [= <- _]. constructor; [|by eapply IH].
    assert (errs = ∅) as -> by (apply map_size_empty_iff; lia). eauto.
Qed.

(** When [List] returns records, the store has answered the filter, asked
    for [perPage] records from the offset of the page, and [List] returns
    as many records as the store found: the records found when the query
    names no expansion, each of them expanded without error when it names
    one. *)
Theorem List_returns_the_records_found c q args (db db' : DB) records :
  Dsl.List c q args db = (inl records, db') →
  ∃ found db1,
    Dsl.FindRecordsByFilter (Dsl.app c) db (Dsl.collection c)
                            (Dsl.filter q) (Dsl.sort q)
                            (Dsl.perPage q) (Dsl.listOffset q) args
    = (inl found, db1) ∧
    length records = length found ∧
    if String.eqb (Dsl.expand q) ""
    then records = found ∧ db' = db1
    else Forall2 (fun r f => ∃ dba dbb,
                    Dsl.ExpandRecord (Dsl.app c) dba f (Dsl.expandsOf q) = ((r, ∅), dbb))
                 records found.
Proof.
  unfold Dsl.List.
  destruct (Dsl.FindRecordsByFilter _ _ _ _ _ _ _ _) as [[found|err] db1]; [|done].
  intros Hlist. exists found, db1. split; [done|].
  destruct (String.eqb (Dsl.expand q) ""); simpl in Hlist.
  - by simplify_eq.
  - apply expandAll_records in Hlist. split; [|done]. by eapply Forall2_length.
Qed.

(** [Update] and [Delete] of a record that the store does not find return
    the error of the lookup and leave the store as the lookup left it:
    nothing is saved or deleted.  [Create] into a collection that is not
    found does the same, with "collection not found: " before the
    error. *)
Theorem writes_need_their_target c id fields (db db1 : DB) msg :
  (Dsl.FindRecordById (Dsl.app c) db (Dsl.collection c) id = (inr msg, db1) →
   Dsl.Update c id fields db = (inr msg, db1) ∧ Dsl.Delete c id db = (Some msg, db1)) ∧
  (Dsl.FindCollectionByNameOrId (Dsl.app c) db (Dsl.collection c) = (inr msg, db1) →
   Dsl.Create c fields db = (inr ("collection not found: " +:+ msg), db1)).
Proof.
  split.
  - intros Hfind. unfold Dsl.Update, Dsl.Delete. by rewrite Hfind.
  - intros Hfind. unfold Dsl.Create. by rewrite Hfind.
Qed.

End CollectionProperties.

Lemma assign_found q f (h : Dsl.Heap) b :
  h !! q = Some b → Dsl.assign q f h = Ok (q, <[q := f b]> h).
Proof. intros Hq. unfold Dsl.assign. by rewrite Hq. Qed.

(** A chain of calls on a builder returns the pointer it started from and
    has written to that builder only; the builder then holds, in every
    field, what the last call of the method of that field gave, and the
    filter it had. *)
Theorem chain_writes_through_the_receiver calls : ∀ q (h : Dsl.Heap) b,
  h !! q = Some b →
  Dsl.chain calls q h = Ok (q, <[q := Dsl.settled calls b]> h) ∧
  Dsl.filter (Dsl.settled calls b) = Dsl.filter b.
Proof.
  induction calls as [|call calls IH]; intros q h b Hq; simpl.
  - split; [|done]. by rewrite insert_id.
  - assert (∃ b', Dsl.callSetter call q h = Ok (q, <[q := b']> h) ∧
                  Dsl.filter b' = Dsl.filter b ∧
                  Dsl.settled (call :: calls) b = Dsl.settled calls b')
      as (b' & -> & Hfilter & Hsettled).
    { destruct call; simpl; unfold Dsl.Page, Dsl.Expand, Dsl.Sort, Dsl.Params_;
        rewrite (assign_found _ _ _ _ Hq); eauto. }
    simpl in Hsettled. rewrite Hsettled.
    destruct (IH q (<[q := b']> h) b' (lookup_insert_eq _ _ _)) as [-> ->].
    by rewrite insert_insert_eq.
Qed.

(** A call on the nil pointer panics. *)
Lemma setter_on_nil call q (h : Dsl.Heap) :
  h !! q = None →
  Dsl.callSetter call q h
  = Panic "runtime error: invalid memory address or nil pointer dereference".
Proof.
  intros Hq. destruct call; simpl;
    unfold Dsl.Page, Dsl.Expand, Dsl.Sort, Dsl.Params_, Dsl.assign; by rewrite Hq.
Qed.

(* ===================================================================== *)
(** ** The further properties on services, slugs and queries *)
(* ===================================================================== *)

Lemma fetch_by_id_not_found_witness :
  Bind Fixture.testServer GET_service_entity_id
       (Fixture.request [("service", "nosuch"); ("entity", "user"); ("id", "1")] "")
  = MkStep [] (inl (Responded 404 (BodyErrorf "Service 'nosuch' not found"))) ∧
  Bind Fixture.testServer GET_service_entity_id
       (Fixture.request [("service", "test"); ("entity", "order-line"); ("id", "1")] "")
  = MkStep [] (inl (Responded 404
                      (BodyErrorf "Method 'GetOrderLine' not found in service 'test'"))).
Proof.
  split.
  - apply (proj1 (fetch_by_id_not_found Fixture.testServer
             (Fixture.request [("service", "nosuch"); ("entity", "user"); ("id", "1")] ""))).
    vm_compute. reflexivity.
  - eapply (proj2 (fetch_by_id_not_found Fixture.testServer
             (Fixture.request [("service", "test"); ("entity", "order-line"); ("id", "1")] ""))).
    + vm_compute. reflexivity.
    + vm_compute. reflexivity.
Defined.

Lemma fetch_by_id_signature_mismatch_witness :
  Bind Orders.ordersServer GET_service_entity_id
       (Fixture.request [("service", "orders"); ("entity", "order"); ("id", "7")] "")
  = MkStep [] (inl (Responded 400
      (BodyErrorf "Method 'GetOrder' does not accept a string parameter"))).
Proof.
  eapply (fetch_by_id_signature_mismatch Orders.ordersServer
            (Fixture.request [("service", "orders"); ("entity", "order"); ("id", "7")] "") _
            (descriptor Orders.GetOrder) Orders.OrderRequest).
  - vm_compute. reflexivity.
  - vm_compute. reflexivity.
  - reflexivity.
  - discriminate.
Defined.

Lemma invoke_by_name_decode_failure_witness :
  Bind Fixture.testServer POST_service_method
       (Orders.undecodable [("service", "test"); ("method", "create-user")]
                           "unexpected end of JSON input")
  = MkStep [BoundBody Fixture.TestRequest]
           (inl (Responded 400
                   (BodyErrorf "Invalid parameters: unexpected end of JSON input"))).
Proof.
  eapply (invoke_by_name_decode_failure Fixture.testServer
            (Orders.undecodable [("service", "test"); ("method", "create-user")]
                                "unexpected end of JSON input") _
            (descriptor Fixture.CreateUser) Fixture.TestServicePtr Fixture.TestRequest).
  - exact testServer_reachable.
  - vm_compute. reflexivity.
  - vm_compute. reflexivity.
  - reflexivity.
  - reflexivity.
Defined.

Lemma result_is_the_success_body_witness :
  next (Bind Fixture.testServer POST_service_method
          (Fixture.request [("service", "test"); ("method", "create-user")] "ann"))
  = inl (Responded 200 (BodyValue (Fixture.val Fixture.TestResponse "user_123 ann"))) ∧
  next (Bind Fixture.testServer GET_service_entity_id
          (Fixture.request [("service", "test"); ("entity", "user"); ("id", "42")] ""))
  = inl (Responded 200
           (BodyValue (Fixture.val Fixture.TestResponse "42 Test User test@example.com"))).
Proof.
  split.
  - eapply (result_is_the_success_body Fixture.testServer POST_service_method _
              "CreateUser" _ _ Fixture.nilError).
    + exact testServer_reachable.
    + exact testServer_well_typed.
    + vm_compute. apply list_elem_of_further, list_elem_of_here.
    + reflexivity.
  - eapply (result_is_the_success_body Fixture.testServer GET_service_entity_id _
              "GetUser" _ _ Fixture.nilError).
    + exact testServer_reachable.
    + exact testServer_well_typed.
    + vm_compute. apply list_elem_of_here.
    + reflexivity.
Defined.

Lemma failure_without_nil_panics_witness :
  next (Bind Orders.ordersServer POST_service_method
          (Fixture.request [("service", "orders"); ("method", "cancel")] "o1"))
  = inl (Panicked "reflect: call of reflect.Value.IsNil on struct Value").
Proof.
  eapply (failure_without_nil_panics Orders.ordersServer POST_service_method _
            "Cancel" _ [Orders.refused] Orders.refused).
  - exact ordersServer_reachable.
  - exact ordersServer_well_typed.
  - vm_compute. apply list_elem_of_further, list_elem_of_here.
  - reflexivity.
  - reflexivity.
Defined.

Lemma fetch_by_id_calls_with_the_id_witness :
  let e := Fixture.request [("service", "test"); ("entity", "user"); ("id", "42")] "" in
  (∀ t, BoundBody t ∉ trace (Bind Fixture.testServer GET_service_entity_id e)) ∧
  (∀ nm args res,
     Called nm args res ∈ trace (Bind Fixture.testServer GET_service_entity_id e) →
     nm = "Get" +:+ kebabToPascal (PathValue e "entity") ∧
     args = [Reflect.ValueOfString (PathValue e "id")] ∧
     trace (Bind Fixture.testServer GET_service_entity_id e) = [Called nm args res]).
Proof.
  exact (fetch_by_id_calls_with_the_id Fixture.testServer _
           testServer_reachable testServer_well_typed).
Defined.

Lemma invoke_by_name_call_witness :
  let e := Fixture.request [("service", "test"); ("method", "create-user")] "ann" in
  ∃ svc info,
    services Fixture.testServer !! PathValue e "service" = Some svc ∧
    methods svc !! kebabToPascal (PathValue e "method") = Some info ∧
    "CreateUser" = kebabToPascal (PathValue e "method") ∧
    ((Type_ info = None ∧ [Fixture.val Fixture.TestRequest "ann"] = [] ∧
      trace (Bind Fixture.testServer POST_service_method e)
      = [Called "CreateUser" [Fixture.val Fixture.TestRequest "ann"]
           (Ok [Fixture.val Fixture.TestResponse "user_123 ann"; Fixture.nilError])]) ∨
     (∃ t c, Type_ info = Some t ∧ BindBody e t = inr c ∧
             [Fixture.val Fixture.TestRequest "ann"]
             = [{| Reflect.typ := t; Reflect.content := c |}] ∧
             trace (Bind Fixture.testServer POST_service_method e)
             = [BoundBody t;
                Called "CreateUser" [Fixture.val Fixture.TestRequest "ann"]
                  (Ok [Fixture.val Fixture.TestResponse "user_123 ann"; Fixture.nilError])])).
Proof.
  intros e.
  apply (invoke_by_name_call Fixture.testServer e "CreateUser"
           [Fixture.val Fixture.TestRequest "ann"]
           (Ok [Fixture.val Fixture.TestResponse "user_123 ann"; Fixture.nilError])).
  - exact testServer_reachable.
  - exact testServer_well_typed.
  - vm_compute. apply list_elem_of_further, list_elem_of_here.
Defined.

(** On [GET /test/stats/42] the method takes no parameter; on
    [GET /items/item/7] the parameter is a [main.ItemID] and [Value.Call]
    refuses the [string]. *)
Lemma handler_panics_only_there_witness :
  let e := Fixture.request [("service", "test"); ("entity", "stats"); ("id", "42")] "" in
  let msg := "runtime error: invalid memory address or nil pointer dereference" in
  let e' := Fixture.request [("service", "items"); ("entity", "item"); ("id", "7")] "" in
  let msg' := "reflect: Call using string as type main.ItemID" in
  (∃ svc info,
     services Fixture.testServer !! "test" = Some svc ∧
     methods svc !! "GetStats" = Some info ∧
     ((∃ args,
         Reflect.Call (Some (Method info)) args = Panic msg ∧
         Called (Reflect.Name (Method info)) args (Panic msg)
         ∈ trace (Bind Fixture.testServer GET_service_entity_id e)) ∨
      (∃ args results failure,
         Called (Reflect.Name (Method info)) args (Ok results)
         ∈ trace (Bind Fixture.testServer GET_service_entity_id e) ∧
         last results = Some failure ∧ Reflect.IsNil failure = Panic msg) ∨
      (GET_service_entity_id = GET_service_entity_id ∧
       (∃ receiver, Reflect.In (Method info) = [receiver]) ∧
       Reflect.KindOf (Type_ info) = Panic msg ∧
       trace (Bind Fixture.testServer GET_service_entity_id e) = []))) ∧
  (∃ svc info,
     services Items.itemsServer !! "items" = Some svc ∧
     methods svc !! "GetItem" = Some info ∧
     ((∃ args,
         Reflect.Call (Some (Method info)) args = Panic msg' ∧
         Called (Reflect.Name (Method info)) args (Panic msg')
         ∈ trace (Bind Items.itemsServer GET_service_entity_id e')) ∨
      (∃ args results failure,
         Called (Reflect.Name (Method info)) args (Ok results)
         ∈ trace (Bind Items.itemsServer GET_service_entity_id e') ∧
         last results = Some failure ∧ Reflect.IsNil failure = Panic msg') ∨
      (GET_service_entity_id = GET_service_entity_id ∧
       (∃ receiver, Reflect.In (Method info) = [receiver]) ∧
       Reflect.KindOf (Type_ info) = Panic msg' ∧
       trace (Bind Items.itemsServer GET_service_entity_id e') = []))) ∧
  trace (Bind Items.itemsServer GET_service_entity_id e')
  = [Called "GetItem" [Reflect.ValueOfString "7"] (Panic msg')].
Proof.
  intros e msg e' msg'. split; [|split].
  - apply (handler_panics_only_there Fixture.testServer GET_service_entity_id e msg).
    + exact testServer_reachable.
    + exact testServer_well_typed.
    + vm_compute. reflexivity.
  - apply (handler_panics_only_there Items.itemsServer GET_service_entity_id e' msg').
    + exact itemsServer_reachable.
    + exact itemsServer_well_typed.
    + vm_compute. reflexivity.
  - vm_compute. reflexivity.
Defined.

Lemma RegisterService_keeps_other_answers_witness :
  ∃ reg,
    RegisterService Fixture.testServer "products" (Some Fixture.ProductsService) = Ok reg ∧
    Bind (server reg) POST_service_method
         (Fixture.request [("service", "test"); ("method", "get-stats")] "")
    = Bind Fixture.testServer POST_service_method
         (Fixture.request [("service", "test"); ("method", "get-stats")] "").
Proof.
  destruct (RegisterService_returns Fixture.testServer "products"
              (Some Fixture.ProductsService)) as (table & _ & log & Hreg).
  eexists. split; [exact Hreg|].
  apply (RegisterService_keeps_other_answers Fixture.testServer "products"
           (Some Fixture.ProductsService) _ POST_service_method _); [discriminate|exact Hreg].
Defined.

Lemma registry_entries_are_named_witness :
  ∃ svc, services Fixture.testServer !! "test" = Some svc ∧
         serviceName svc = "test" ∧ (service svc = None → methods svc = ∅).
Proof.
  eexists. split; [vm_compute; reflexivity|].
  eapply (registry_entries_are_named Fixture.testServer "test").
  - exact testServer_reachable.
  - vm_compute. reflexivity.
Defined.

Lemma RegisterService_commutes_witness :
  ∃ r1 r12 r2 r21,
    RegisterService NewServer "test" (Some Fixture.TestService) = Ok r1 ∧
    RegisterService (server r1) "products" (Some Fixture.ProductsService) = Ok r12 ∧
    RegisterService NewServer "products" (Some Fixture.ProductsService) = Ok r2 ∧
    RegisterService (server r2) "test" (Some Fixture.TestService) = Ok r21 ∧
    server r12 = server r21.
Proof.
  apply (RegisterService_commutes NewServer "test" (Some Fixture.TestService)
           "products" (Some Fixture.ProductsService)).
  discriminate.
Defined.

Lemma kebabToPascal_ascii_witness :
  kebabToPascal "create-user" = pascal_of_slug "create-user" ∧
  pascal_of_slug "create-user" = "CreateUser".
Proof.
  split; [|reflexivity].
  apply (kebabToPascal_ascii "create-user").
  repeat constructor.
Defined.

Lemma kebabToPascal_ignores_case_witness :
  kebabToPascal "Create-USER" = kebabToPascal "create-user".
Proof.
  apply (kebabToPascal_ignores_case "Create-USER" "create-user").
  - repeat constructor.
  - repeat constructor.
  - reflexivity.
Defined.

Lemma kebabToPascal_of_kebab_witness :
  kebab_of "GetUserProfile" = "get-user-profile" ∧
  kebabToPascal (kebab_of "GetUserProfile") = "GetUserProfile".
Proof.
  split; [reflexivity|].
  apply (kebabToPascal_of_kebab "GetUserProfile").
  - repeat constructor.
  - repeat (constructor; [discriminate|]). constructor.
  - reflexivity.
Defined.

(** Page 3 of 10 begins at record 20 and page 0 of 10 at record 0; page 0
    of -5 begins at record 5 and page -3 of -5 at record 20. *)
Lemma listOffset_of_page_witness :
  let q p n := {| Dsl.filter := ""; Dsl.page := p; Dsl.perPage := n;
                  Dsl.expand := ""; Dsl.sort := ""; Dsl.params := [] |} in
  Dsl.listOffset (q 3 10) = 20 ∧
  Dsl.listOffset (q 0 10) = 0 ∧
  (Dsl.listOffset (q 0 (-5)) = 5 ∧ 0 < Dsl.listOffset (q 0 (-5))) ∧
  (Dsl.listOffset (q (-3) (-5)) = 20 ∧ 0 < Dsl.listOffset (q (-3) (-5))).
Proof.
  intros q.
  assert (Hfit : ∀ z, -100 ≤ z ≤ 100 → Dsl.inInt z).
  { intros z Hz. unfold Dsl.inInt. change (2 ^ (intBits - 1)) with 9223372036854775808. lia. }
  split; [|split; [|split]].
  - apply (proj1 (proj2 (proj2 (listOffset_of_page (q 3 10))))).
    apply Hfit. simpl. lia.
  - apply (proj1 (proj2 (proj2 (proj2 (listOffset_of_page (q 0 10)))))).
    + apply Hfit. simpl. lia.
    + simpl. lia.
    + simpl. lia.
  - apply (proj2 (proj2 (proj2 (proj2 (listOffset_of_page (q 0 (-5))))))).
    + apply Hfit. simpl. lia.
    + simpl. lia.
    + simpl. lia.
  - apply (proj2 (proj2 (proj2 (proj2 (listOffset_of_page (q (-3) (-5))))))).
    + apply Hfit. simpl. lia.
    + simpl. lia.
    + simpl. lia.
Defined.

Lemma queries_are_read_through_these_fields_witness :
  let q := {| Dsl.filter := "name = {:name}"; Dsl.page := 1; Dsl.perPage := 2;
              Dsl.expand := ""; Dsl.sort := "-created";
              Dsl.params := [{["name" := "tea"]}] |} in
  let q' := {| Dsl.filter := "name = {:name}"; Dsl.page := 1; Dsl.perPage := 2;
               Dsl.expand := ""; Dsl.sort := "-created"; Dsl.params := [] |} in
  Dsl.First MemoryApp.products q [] MemoryApp.stock
  = Dsl.First MemoryApp.products q' [] MemoryApp.stock ∧
  Dsl.List MemoryApp.products q [] MemoryApp.stock
  = Dsl.List MemoryApp.products q' [] MemoryApp.stock.
Proof.
  intros q q'.
  destruct (queries_are_read_through_these_fields MemoryApp.products q q' []
              MemoryApp.stock eq_refl eq_refl eq_refl) as [Hfirst Hlist].
  split; [exact Hfirst|exact (Hlist eq_refl eq_refl)].
Defined.

Lemma First_returns_the_first_found_witness :
  let q := {| Dsl.filter := ""; Dsl.page := 0; Dsl.perPage := 0;
              Dsl.expand := "maker, shelf"; Dsl.sort := ""; Dsl.params := [] |} in
  ∃ r0 rest db1,
    Dsl.FindRecordsByFilter MemoryApp.memoryApp MemoryApp.stock "products" "" "" 1 0 []
    = (inl (r0 :: rest), db1) ∧
    Dsl.ExpandRecord MemoryApp.memoryApp db1 r0 ["maker"; "shelf"]
    = ((("p1", "tea"), ∅), MemoryApp.stock).
Proof.
  intros q.
  exact (First_returns_the_first_found MemoryApp.products q [] MemoryApp.stock
           MemoryApp.stock ("p1", "tea") eq_refl).
Defined.

Lemma List_returns_the_records_found_witness :
  let q := {| Dsl.filter := ""; Dsl.page := 2; Dsl.perPage := 2;
              Dsl.expand := ""; Dsl.sort := ""; Dsl.params := [] |} in
  ∃ found db1,
    Dsl.FindRecordsByFilter MemoryApp.memoryApp MemoryApp.stock "products" "" "" 2
                            (Dsl.listOffset q) []
    = (inl found, db1) ∧
    length [("p3", "cocoa")] = length found ∧
    [("p3", "cocoa")] = found ∧ MemoryApp.stock = db1.
Proof.
  intros q.
  exact (List_returns_the_records_found MemoryApp.products q [] MemoryApp.stock
           MemoryApp.stock [("p3", "cocoa")] eq_refl).
Defined.

Lemma writes_need_their_target_witness :
  Dsl.Update MemoryApp.products "p9" {["name" := "mate"]} MemoryApp.stock
  = (inr "sql: no rows in result set", MemoryApp.stock) ∧
  Dsl.Delete MemoryApp.products "p9" MemoryApp.stock
  = (Some "sql: no rows in result set", MemoryApp.stock) ∧
  Dsl.Create (Dsl.Collection MemoryApp.memoryApp "orders") {["name" := "mate"]}
             MemoryApp.stock
  = (inr "collection not found: no such collection", MemoryApp.stock).
Proof.
  split; [|split].
  - apply (proj1 (writes_need_their_target MemoryApp.products "p9" {["name" := "mate"]}
                    MemoryApp.stock MemoryApp.stock "sql: no rows in result set")).
    reflexivity.
  - apply (proj1 (writes_need_their_target MemoryApp.products "p9" ∅
                    MemoryApp.stock MemoryApp.stock "sql: no rows in result set")).
    reflexivity.
  - apply (proj2 (writes_need_their_target (Dsl.Collection MemoryApp.memoryApp "orders")
                    "" {["name" := "mate"]} MemoryApp.stock MemoryApp.stock
                    "no such collection")).
    reflexivity.
Defined.

Lemma chain_writes_through_the_receiver_witness :
  let b := {| Dsl.filter := "name = 'test'"; Dsl.page := 0; Dsl.perPage := 0;
              Dsl.expand := ""; Dsl.sort := ""; Dsl.params := [] |} in
  let calls := [Dsl.CallPage 2 20; Dsl.CallSort "name"; Dsl.CallExpand "user";
                Dsl.CallSort "created"] in
  Dsl.chain calls 0%nat {[0%nat := b]}
  = Ok (0%nat, <[0%nat := Dsl.settled calls b]> {[0%nat := b]}) ∧
  Dsl.filter (Dsl.settled calls b) = "name = 'test'" ∧
  Dsl.sort (Dsl.settled calls b) = "created".
Proof.
  intros b calls.
  destruct (chain_writes_through_the_receiver calls 0%nat {[0%nat := b]} b
              (lookup_singleton_eq _ _)) as [Hchain Hfilter].
  split; [exact Hchain|]. split; [exact Hfilter|reflexivity].
Defined.
